(** * godot-whisper: the streaming capture-and-segmentation pipeline

    A shallow embedding of [speech_to_text.cpp]: the high-pass filter, the
    energy test [vad_simple], the producer [add_audio_buffer] and one turn of
    the worker loop [SpeechToText::run] with its segment-splitting scan.

    Conventions of the embedding.
    - A finite C++ [float]/[double] is the rational it denotes ([Qc],
      canonical rationals with Leibniz equality); comparisons are exact, as
      they are on finite floats.  Infinities and NaN have no counterpart.
    - Rounding is written out where a result of the code turns on it: the
      literal [0.0001f], the product of the ratio test of line 98 and the
      downmix of line 47 (binary32), and the sample index of line 626
      (binary64), with [Float.binary32] and [Float.binary64].  The running values of [high_pass_filter] and the
      energy sums of [vad_simple] are kept exact: they agree with the code
      where every operation of the code is exact (zeros, one or two equal
      samples, powers of two), and the statements about measured energies
      are made on such vectors or on the final comparison alone.
    - [int], [int64_t] and [size_t] values are [Z] or [nat]; the [int]
      product of line 67 wraps as in two's complement; where the source
      would leave the range of the type or index outside a vector, the model
      says so explicitly (outcome [Undefined]).
    - A [std::vector<float>] passed by reference and mutated is returned
      next to the function's result.
    - A [std::string] is a [string] of bytes. *)

From Stdlib Require Import ZArith List Bool Lia.
From Stdlib Require Import Strings.String Strings.Ascii.
From Stdlib Require Import QArith Qabs Qcanon Qcabs.
Import ListNotations.

Local Open Scope Z_scope.

(** ** Numbers *)

Module Num.

Definition Z2Qc (z : Z) : Qc := Q2Qc (inject_Z z).

(** [x < y] on floats, as a boolean. *)
Definition ltb (x y : Qc) : bool :=
  match (x ?= y)%Qc with Lt => true | _ => false end.

End Num.

(** ** Binary floating point

    Round to nearest, ties to even, of a rational to a binary format of
    [prec] significant bits whose smallest subnormal is [2 ^ emin].  The
    exponent is not bounded above: a result beyond the largest finite
    number of the format stands for an overflow. *)

Module Float.

(** The integer nearest to [n / d], for [0 <= n] and [0 < d]. *)
Definition round_half_even (n d : Z) : Z :=
  let q := n / d in
  let r := n mod d in
  if 2 * r <? d then q
  else if d <? 2 * r then q + 1
  else if Z.even q then q else q + 1.

(** [n / d] rounded, for [0 < n] and [0 < d]: [k] is the exponent of the
    leading bit of [n / d] and [2 ^ u] the spacing of the format there. *)
Definition round_positive (prec emin : Z) (n d : Z) : Q :=
  let e0 := Z.log2 n - Z.log2 d in
  let at_least :=
    if 0 <=? e0 then d * 2 ^ e0 <=? n else d <=? n * 2 ^ (- e0) in
  let k := if at_least then e0 else e0 - 1 in
  let u := Z.max (k - (prec - 1)) emin in
  if 0 <=? u
  then inject_Z (round_half_even n (d * 2 ^ u) * 2 ^ u)
  else Qmake (round_half_even (n * 2 ^ (- u)) d) (Z.to_pos (2 ^ (- u))).

Definition round (prec emin : Z) (q : Q) : Q :=
  match Qnum q with
  | Z0 => 0%Q
  | Zpos n => round_positive prec emin (Zpos n) (Zpos (Qden q))
  | Zneg n => Qopp (round_positive prec emin (Zpos n) (Zpos (Qden q)))
  end.

(** [float] and [double]. *)
Definition binary32 : Q -> Q := round 24 (-149).
Definition binary64 : Q -> Q := round 53 (-1074).


(** Conversion to an integer type: towards zero. *)
Definition truncate (q : Q) : Z := Z.quot (Qnum q) (Zpos (Qden q)).

End Float.

(** The product of two [float]s: the [float] nearest to it (an underflow
    gives 0). *)
Definition float_mul (x y : Qc) : Qc :=
  Q2Qc (Float.binary32 (this x * this y)).

(** The value an [int] holds after an arithmetic result [z]: on the usual
    targets the product of two [int]s wraps (the language leaves the
    overflow undefined). *)
Definition wrap_int (z : Z) : Z := (z + 2 ^ 31) mod 2 ^ 32 - 2 ^ 31.

(** ** Constants of the headers

    [speech_to_text.h], [whisper.h] and godot-cpp's [math_defs.hpp] are not
    among the sources; the three constants below are the ones the code reads
    from them. *)

(** Modelled from the spec: [WHISPER_SAMPLE_RATE], the engine's fixed sample
    rate, 16 kHz. *)
Definition WHISPER_SAMPLE_RATE : Z := 16000.

(** Modelled from the spec: [SPEECH_SETTING_SAMPLE_RATE], the rate the
    producer resamples to, which is the engine's fixed rate. *)
Definition SPEECH_SETTING_SAMPLE_RATE : Z := 16000.

(** Modelled from the spec: [Math_PI], the constant pi of the filter's [rc];
    godot-cpp writes it as the decimal literal below. *)
Definition Math_PI : Qc :=
  Q2Qc (31415926535897932384626433833 # 10000000000000000000000000000).

(** The literal [0.0001f] of [vad_simple]: the [float] nearest to 1/10000,
    which is [13743895 / 2 ^ 37]. *)
Definition energy_floor : Qc := Q2Qc (13743895 # 137438953472).

(** ** Vectors updated in place *)

(** [data[i] = v]; writing past the end does not occur in the code below. *)
Fixpoint update {A : Type} (i : nat) (v : A) (l : list A) : list A :=
  match l, i with
  | [], _ => []
  | _ :: l', O => v :: l'
  | x :: l', S i' => x :: update i' v l'
  end.

(** ** high_pass_filter (lines 51-62) *)

Local Open Scope Qc_scope.

(** The body of [for (size_t i = 1; i < data.size(); i++)], run [n] more
    times from index [i]: both reads, [data[i]] and [data[i - 1]], are of the
    vector as it is at that moment. *)
Fixpoint high_pass_loop (alpha : Qc) (n i : nat) (y : Qc) (data : list Qc)
  : list Qc :=
  match n with
  | O => data
  | S n' =>
      let y' := alpha * (y + nth i data 0 - nth (i - 1) data 0) in
      high_pass_loop alpha n' (S i) y' (update i y' data)
  end.

(** [alpha] of lines 52-54.  In the source a cutoff or a rate of 0 divides
    by zero and gives an infinity or a NaN, which the rationals do not
    have: the definition is meant for [0 < cutoff] and [0 < sample_rate],
    as in both calls of the pipeline ([freq_thold > 0] at 16 kHz). *)
Definition filter_alpha (cutoff sample_rate : Qc) : Qc :=
  let rc := 1 / (Q2Qc 2 * Math_PI * cutoff) in
  let dt := 1 / sample_rate in
  dt / (rc + dt).

(** On an empty vector the source reads [data[0]] out of bounds before a
    loop that does not run: the definition is meant for a non-empty vector.
    [vad_simple] passes an empty one only when its [int] product of line 67
    is negative, which the calls of the pipeline exclude. *)
Definition high_pass_filter (data : list Qc) (cutoff sample_rate : Qc)
  : list Qc :=
  let alpha := filter_alpha cutoff sample_rate in
  let y := nth 0 data 0 in
  high_pass_loop alpha (List.length data - 1) 1 y data.

(** ** vad_simple (lines 65-102) *)

(** The energy loop over [i = 0 .. n_samples - 1], from index [i] on. *)
Fixpoint energy_loop (n_samples n_samples_last i : Z) (l : list Qc)
    (energy_all energy_last : Qc) : Qc * Qc :=
  match l with
  | [] => (energy_all, energy_last)
  | x :: l' =>
      let energy_all := energy_all + Qcabs x in
      let energy_last :=
        if (n_samples - n_samples_last <=? i)%Z
        then energy_last + Qcabs x else energy_last in
      energy_loop n_samples n_samples_last (i + 1)%Z l' energy_all energy_last
  end.

(** The two means of [vad_simple], after its divisions. *)
Definition energies (pcmf32 : list Qc) (n_samples_last : Z) : Qc * Qc :=
  let n_samples := Z.of_nat (List.length pcmf32) in
  let '(energy_all, energy_last) :=
    energy_loop n_samples n_samples_last 0%Z pcmf32 0 0 in
  let energy_all := energy_all / Num.Z2Qc n_samples in
  let energy_last :=
    if (n_samples_last =? 0)%Z then energy_last
    else energy_last / Num.Z2Qc n_samples_last in
  (energy_all, energy_last).

(** The final test of [vad_simple]: [true] is "return true". *)
Definition vad_decision (vad_thold energy_all energy_last : Qc) : bool :=
  if negb (Num.ltb energy_all energy_floor && Num.ltb energy_last energy_floor)
     || Num.ltb (float_mul vad_thold energy_all) energy_last
  then false else true.

(** [vad_simple pcmf32 sample_rate last_ms vad_thold freq_thold] returns the
    boolean and the vector as the call leaves it ([verbose] only prints).
    [sample_rate] and [last_ms] are [int]s and their product is an [int];
    the vector is taken to hold at most [INT_MAX] samples. *)
Definition vad_simple (pcmf32 : list Qc) (sample_rate last_ms : Z)
    (vad_thold freq_thold : Qc) : bool * list Qc :=
  let n_samples := Z.of_nat (List.length pcmf32) in
  let n_samples_last := Z.quot (wrap_int (sample_rate * last_ms)) 1000 in
  if (n_samples <=? n_samples_last)%Z then (false, pcmf32)
  else
    let pcmf32 :=
      if Num.ltb 0 freq_thold
      then high_pass_filter pcmf32 freq_thold (Num.Z2Qc sample_rate)
      else pcmf32 in
    let '(energy_all, energy_last) := energies pcmf32 n_samples_last in
    (vad_decision vad_thold energy_all energy_last, pcmf32).

Local Close Scope Qc_scope.

(** ** The segment-splitting scan (lines 556-607) *)

Local Open Scope string_scope.

(** A token as the engine reports it: [whisper_full_get_token_text] and the
    timestamps of [whisper_full_get_token_data], in centiseconds. *)
Record token := { tok_text : string; tok_t0 : Z; tok_t1 : Z }.

Definition segment := list token.

Definition SPLIT : string := "{SPLIT}".

(** The four full-width marks of line 575, as the UTF-8 bytes of the
    source file. *)
Definition fullwidth_comma : string :=
  String "239"%char (String "188"%char (String "140"%char EmptyString)).
Definition ideographic_full_stop : string :=
  String "227"%char (String "128"%char (String "130"%char EmptyString)).
Definition fullwidth_question : string :=
  String "239"%char (String "188"%char (String "159"%char EmptyString)).
Definition fullwidth_exclamation : string :=
  String "239"%char (String "188"%char (String "129"%char EmptyString)).

(** Line 575: the tag prefix or one of the eight marks. *)
Definition is_split_candidate (cur_text : string) : bool :=
  prefix "[_TT_" cur_text
  || (cur_text =? ",") || (cur_text =? ".")
  || (cur_text =? "?") || (cur_text =? "!")
  || (cur_text =? fullwidth_comma) || (cur_text =? ideographic_full_stop)
  || (cur_text =? fullwidth_question) || (cur_text =? fullwidth_exclamation).

(** [msg.text.insert(pos, ins)].  [std::string::insert] throws past the end
    of the string; [scan_target_index_in_range] below shows the scan never
    asks for that, and the model then returns [s ++ ins]. *)
Fixpoint insert (pos : nat) (ins s : string) : string :=
  match pos, s with
  | O, _ => ins ++ s
  | S pos', String c s' => String c (insert pos' ins s')
  | S _, EmptyString => ins
  end.

(** The variables the scan carries: [msg.text], [delete_target_t],
    [find_delete_target_t] and the outer [target_index]. *)
Record scan_state := {
  msg_text : string;
  delete_target_t : Z;
  find_delete_target_t : bool;
  target_index : nat
}.

Definition scan_init (text : string) : scan_state :=
  {| msg_text := text; delete_target_t := 0;
     find_delete_target_t := false; target_index := 0 |}.

(** The body of the inner loop for one token.  [String(text)] is built from
    the bytes of [text] one character per byte, so [cur_text.length()] is
    the byte length of the token text. *)
Definition scan_token (half_t : Z) (speech_has_end : bool)
    (st : scan_state) (tk : token) : scan_state :=
  let text := tok_text tk in
  if negb (find_delete_target_t st) then
    let cur_text := text in
    if is_split_candidate cur_text then
      if (tok_t1 tk <? half_t)%Z then
        {| msg_text := msg_text st ++ text;
           delete_target_t := tok_t1 tk;
           find_delete_target_t := false;
           target_index := String.length (msg_text st) + String.length cur_text |}
      else if (delete_target_t st =? 0)%Z then
        {| msg_text :=
             (if negb speech_has_end then (msg_text st ++ text) ++ SPLIT
              else msg_text st ++ text);
           delete_target_t := tok_t1 tk;
           find_delete_target_t := true;
           target_index := target_index st |}
      else
        {| msg_text :=
             (if negb speech_has_end
              then insert (target_index st) SPLIT (msg_text st)
              else msg_text st) ++ text;
           delete_target_t := delete_target_t st;
           find_delete_target_t := true;
           target_index := target_index st |}
    else
      {| msg_text := msg_text st ++ text;
         delete_target_t := delete_target_t st;
         find_delete_target_t := find_delete_target_t st;
         target_index := target_index st |}
  else
    {| msg_text := msg_text st ++ text;
       delete_target_t := delete_target_t st;
       find_delete_target_t := find_delete_target_t st;
       target_index := target_index st |}.

(** The two nested loops visit the tokens of all segments in order. *)
Definition scan_tokens (half_t : Z) (speech_has_end : bool)
    (st : scan_state) (segs : list segment) : scan_state :=
  fold_left (scan_token half_t speech_has_end) (List.concat segs) st.

(** Lines 604-607, after the loops. *)
Definition scan_finish (st : scan_state) : scan_state :=
  if negb (delete_target_t st =? 0)%Z && negb (find_delete_target_t st) then
    {| msg_text := insert (target_index st) SPLIT (msg_text st);
       delete_target_t := delete_target_t st;
       find_delete_target_t := true;
       target_index := target_index st |}
  else st.

(** Lines 561-566.  [half_t] is half the [t1] of the last token of the last
    segment, cut towards zero on conversion to [int64_t]; with a last
    segment of no tokens the source asks the engine for token [-1], which
    is outside its vector ([None]). *)
Definition half_t_of (segs : list segment) : option Z :=
  match segs with
  | [] => Some 0
  | _ =>
      match last segs [] with
      | [] => None
      | tk :: tks => Some (Z.quot (tok_t1 (last tks tk)) 2)
      end
  end.

(** The whole of lines 556-607 on the text. *)
Definition split_scan (speech_has_end : bool) (text : string)
    (segs : list segment) : option scan_state :=
  match half_t_of segs with
  | None => None
  | Some half_t =>
      Some (scan_finish
              (scan_tokens half_t speech_has_end (scan_init text) segs))
  end.

(** The texts of the tokens, one after the other. *)
Definition token_texts (tks : list token) : string :=
  fold_right (fun tk acc => tok_text tk ++ acc) "" tks.

Local Close Scope string_scope.

(** ** Shared and worker state *)

Record transcribed_msg := { text : string; is_partial : bool }.

(** The two thresholds of [params] the pipeline reads. *)
Record params := { vad_thold : Qc; freq_thold : Qc }.

(** The ingest queue and the result sink (shared, under [s_mutex]), the
    signals emitted so far (oldest first, each with its array of messages),
    and the locals of [run] that live across turns of its loop. *)
Record state := {
  s_queued_pcmf32 : list Qc;
  s_transcribed_msgs : list transcribed_msg;
  signals : list (list transcribed_msg);
  pcmf32 : list Qc;
  empty_iter_count : Z;
  need_close_segment : bool
}.

Definition set_queue (queue : list Qc) (st : state) : state :=
  {| s_queued_pcmf32 := queue;
     s_transcribed_msgs := s_transcribed_msgs st;
     signals := signals st;
     pcmf32 := pcmf32 st;
     empty_iter_count := empty_iter_count st;
     need_close_segment := need_close_segment st |}.

Definition set_pcmf32 (window : list Qc) (st : state) : state :=
  {| s_queued_pcmf32 := s_queued_pcmf32 st;
     s_transcribed_msgs := s_transcribed_msgs st;
     signals := signals st;
     pcmf32 := window;
     empty_iter_count := empty_iter_count st;
     need_close_segment := need_close_segment st |}.

Definition set_idle (count : Z) (close : bool) (st : state) : state :=
  {| s_queued_pcmf32 := s_queued_pcmf32 st;
     s_transcribed_msgs := s_transcribed_msgs st;
     signals := signals st;
     pcmf32 := pcmf32 st;
     empty_iter_count := count;
     need_close_segment := close |}.

(** Lines 639-652: the message joins the sink, the sink is moved out and
    cleared, and its content leaves with the signal. *)
Definition emit (msg : transcribed_msg) (st : state) : state :=
  {| s_queued_pcmf32 := s_queued_pcmf32 st;
     s_transcribed_msgs := [];
     signals := signals st ++ [s_transcribed_msgs st ++ [msg]];
     pcmf32 := pcmf32 st;
     empty_iter_count := empty_iter_count st;
     need_close_segment := need_close_segment st |}.

(** ** The producer: add_audio_buffer (lines 15-49, 381-408) *)

Definition Vector2 : Type := Qc * Qc.

(** Line 47: the sum of the two [float] channels is a [float], its half
    is taken in [double] (exactly) and stored as a [float]. *)
Definition downmix (v : Vector2) : Qc :=
  Q2Qc (Float.binary32 (Float.binary32 (this (fst v) + this (snd v)) / 2))%Q.

Definition _vector2_array_to_float_array (p_process_buffer_in : list Vector2)
  : list Qc :=
  map downmix p_process_buffer_in.


(** libsamplerate's [src_simple], a collaborator: the frames it generates,
    or [None] for a non-zero error code. *)
Definition resampler : Type := list Qc -> Z -> Z -> option (list Qc).

(** The samples of [p_dst] the caller keeps: the returned count many. *)
Definition _resample_audio_buffer (src_simple : resampler) (p_src : list Qc)
    (p_src_samplerate p_target_samplerate : Z) : list Qc :=
  if negb (p_src_samplerate =? p_target_samplerate) then
    match src_simple p_src p_src_samplerate p_target_samplerate with
    | None => []
    | Some generated => generated
    end
  else p_src.

(** The chunk as [vad_simple] sees it at line 400. *)
Definition resampled_chunk (src_simple : resampler) (mix_rate : Z)
    (buffer : list Vector2) : list Qc :=
  _resample_audio_buffer src_simple (_vector2_array_to_float_array buffer)
    mix_rate SPEECH_SETTING_SAMPLE_RATE.

Definition add_audio_buffer (p : params) (src_simple : resampler)
    (mix_rate : Z) (buffer : list Vector2) (st : state) : state :=
  let data := resampled_chunk src_simple mix_rate buffer in
  let vad_last_ms := 0 in
  let '(is_empty_array, data) :=
    vad_simple data WHISPER_SAMPLE_RATE vad_last_ms (vad_thold p) (freq_thold p) in
  if negb is_empty_array then set_queue (s_queued_pcmf32 st ++ data) st
  else st.

(** ** The worker: one turn of the loop of run (lines 448-655) *)

Definition trigger_ms : Z := 400.
(** [(trigger_ms / 1000.0) * WHISPER_SAMPLE_RATE], as an [int]. *)
Definition n_samples_trigger : Z := trigger_ms * WHISPER_SAMPLE_RATE / 1000.
Definition iter_threshold_ms : Z := trigger_ms * 35.
Definition n_samples_iter_threshold : Z :=
  iter_threshold_ms * WHISPER_SAMPLE_RATE / 1000.
Definition vad_window_s : Z := 3.
Definition n_samples_vad_window : Z := WHISPER_SAMPLE_RATE * vad_window_s.
Definition vad_last_ms : Z := 500.

Definition INT_MIN : Z := - 2 ^ 31.
Definition INT_MAX : Z := 2 ^ 31 - 1.

(** The engine handle: [whisper_full] over the window gives its return code
    and the segments then read back through [whisper_full_n_segments],
    [whisper_full_n_tokens], [whisper_full_get_token_data] and
    [whisper_full_get_token_text]. *)
Definition whisper_context : Type := list Qc -> Z * list segment.

(** How a turn of the loop ends. *)
Inductive outcome :=
| Idle                          (* line 502: slept, back to the loop test *)
| EngineMissing                 (* line 523 *)
| EngineFailed (ret : Z)        (* line 531 *)
| Emitted (msg : transcribed_msg)
| Undefined.                    (* the source leaves the defined language *)

(** Lines 491-505: [true] when the turn goes on to drain the queue. *)
Definition check_queue (st : state) : state * bool :=
  let st := set_idle (empty_iter_count st) false st in
  if Z.of_nat (List.length (s_queued_pcmf32 st)) <? WHISPER_SAMPLE_RATE then
    let count := empty_iter_count st + 1 in
    if (20 <=? count) && (0 <? Z.of_nat (List.length (pcmf32 st))) then
      (set_idle 0 true st, true)
    else
      (set_idle (Z.rem count 20) false st, false)
  else (st, true).

(** Lines 514-519. *)
Definition drain_queue (st : state) : state :=
  set_queue [] (set_pcmf32 (pcmf32 st ++ s_queued_pcmf32 st) st).

(** Line 626: [delete_target_t / 100.0 * WHISPER_SAMPLE_RATE], computed in
    [double] from left to right, each result rounded, before the cut to an
    integer. *)
Definition target_sample_index (delete_target_t : Z) : Z :=
  Float.truncate
    (Float.binary64
       (Float.binary64 (Float.binary64 (inject_Z delete_target_t) / inject_Z 100)
        * inject_Z WHISPER_SAMPLE_RATE))%Q.

(** Lines 622-634: the window a finalizing turn keeps.  The index must fit
    an [int]; it is compared as a [size_t]. *)
Definition retained_window (delete_target_t : Z) (speech_has_end : bool)
    (pcmf32 : list Qc) : option (list Qc) :=
  if (delete_target_t =? 0) || speech_has_end then Some []
  else
    let target_index := target_sample_index delete_target_t in
    if (target_index <? INT_MIN) || (INT_MAX <? target_index) then None
    else if Z.of_nat (List.length pcmf32) <=? target_index mod 2 ^ 64 then Some []
    else Some (skipn (Z.to_nat target_index) pcmf32).

(** Lines 540-555: the text [msg] starts with, whether speech is judged
    ended, and the window as the forced-close call of [vad_simple] leaves
    it. *)
Definition judge_speech_end (p : params) (st : state)
  : string * bool * list Qc :=
  let msg_text := EmptyString in
  let size := Z.of_nat (List.length (pcmf32 st)) in
  let speech_has_end :=
    if n_samples_vad_window <=? size then
      let pcmf32_window :=
        skipn (Z.to_nat (size - n_samples_vad_window)) (pcmf32 st) in
      fst (vad_simple pcmf32_window WHISPER_SAMPLE_RATE vad_last_ms
             (vad_thold p) (freq_thold p))
    else false in
  if need_close_segment st then
    let '(silent, window) :=
      vad_simple (pcmf32 st) WHISPER_SAMPLE_RATE 0 (vad_thold p) (freq_thold p) in
    ((if silent then EmptyString else msg_text), true, window)
  else (msg_text, speech_has_end, pcmf32 st).

(** Lines 521-654, after the queue was drained. *)
Definition transcribe (p : params) (context_instance : option whisper_context)
    (st : state) : state * outcome :=
  match context_instance with
  | None => (st, EngineMissing)
  | Some whisper_full =>
      let '(ret, segs) := whisper_full (pcmf32 st) in
      if negb (ret =? 0) then (st, EngineFailed ret)
      else
        let '(msg_text0, speech_has_end, window) := judge_speech_end p st in
        match split_scan speech_has_end msg_text0 segs with
        | None => (st, Undefined)
        | Some sc =>
            let size := Z.of_nat (List.length window) in
            if (n_samples_iter_threshold * 66 <? 100 * size) || speech_has_end
            then
              match retained_window (delete_target_t sc) speech_has_end window with
              | None => (st, Undefined)
              | Some last =>
                  let msg := {| text := msg_text sc; is_partial := false |} in
                  (emit msg (set_pcmf32 last st), Emitted msg)
              end
            else
              let msg := {| text := msg_text sc; is_partial := true |} in
              (emit msg (set_pcmf32 window st), Emitted msg)
        end
  end.

(** One turn of the [while]: [late] is what the producer appended between
    the check and the drain, which take the lock separately.  The warning
    of lines 507-513 only logs, and the clock readings only feed the
    duration sent with the signal; neither is kept. *)
Definition run_iteration (p : params) (context_instance : option whisper_context)
    (late : list Qc) (st : state) : state * outcome :=
  let '(st, proceed) := check_queue st in
  if proceed then
    transcribe p context_instance
      (drain_queue (set_queue (s_queued_pcmf32 st ++ late) st))
  else (st, Idle).

(** What the surroundings decide for one turn: the flag the loop test
    reads, the samples the producer queued since the previous turn, the
    engine handle, and the late samples of [run_iteration]. *)
Record turn := {
  is_running : bool;
  arrived : list Qc;
  context_instance : option whisper_context;
  late : list Qc
}.

(** [while (is_running) { ... }] over the turns the surroundings allow. *)
Fixpoint run (p : params) (turns : list turn) (st : state) : state :=
  match turns with
  | [] => st
  | t :: rest =>
      if is_running t then
        run p rest
          (fst (run_iteration p (context_instance t) (late t)
                  (set_queue (s_queued_pcmf32 st ++ arrived t) st)))
      else st
  end.

(** ** Languages (lines 133-350)

    The enum [Language] is declared in [speech_to_text.h]; its members are
    read off the case labels of the switch, in the order of the switch. *)

Module Lang.

Inductive Language :=
  | Auto | English | Chinese | German | Spanish | Russian | Korean | French
  | Japanese | Portuguese | Turkish | Polish | Catalan | Dutch | Arabic
  | Swedish | Italian | Indonesian | Hindi | Finnish | Vietnamese | Hebrew
  | Ukrainian | Greek | Malay | Czech | Romanian | Danish | Hungarian
  | Tamil | Norwegian | Thai | Urdu | Croatian | Bulgarian | Lithuanian
  | Latin | Maori | Malayalam | Welsh | Slovak | Telugu | Persian | Latvian
  | Bengali | Serbian | Azerbaijani | Slovenian | Kannada | Estonian
  | Macedonian | Breton | Basque | Icelandic | Armenian | Nepali
  | Mongolian | Bosnian | Kazakh | Albanian | Swahili | Galician | Marathi
  | Punjabi | Sinhala | Khmer | Shona | Yoruba | Somali | Afrikaans
  | Occitan | Georgian | Belarusian | Tajik | Sindhi | Gujarati | Amharic
  | Yiddish | Lao | Uzbek | Faroese | Haitian_Creole | Pashto | Turkmen
  | Nynorsk | Maltese | Sanskrit | Luxembourgish | Myanmar | Tibetan
  | Tagalog | Malagasy | Assamese | Tatar | Hawaiian | Lingala | Hausa
  | Bashkir | Javanese | Sundanese | Cantonese.

Local Open Scope string_scope.

Definition language_to_code (language : Language) : string :=
  match language with
  | Auto => "auto"
  | English => "en"
  | Chinese => "zh"
  | German => "de"
  | Spanish => "es"
  | Russian => "ru"
  | Korean => "ko"
  | French => "fr"
  | Japanese => "ja"
  | Portuguese => "pt"
  | Turkish => "tr"
  | Polish => "pl"
  | Catalan => "ca"
  | Dutch => "nl"
  | Arabic => "ar"
  | Swedish => "sv"
  | Italian => "it"
  | Indonesian => "id"
  | Hindi => "hi"
  | Finnish => "fi"
  | Vietnamese => "vi"
  | Hebrew => "he"
  | Ukrainian => "uk"
  | Greek => "el"
  | Malay => "ms"
  | Czech => "cs"
  | Romanian => "ro"
  | Danish => "da"
  | Hungarian => "hu"
  | Tamil => "ta"
  | Norwegian => "no"
  | Thai => "th"
  | Urdu => "ur"
  | Croatian => "hr"
  | Bulgarian => "bg"
  | Lithuanian => "lt"
  | Latin => "la"
  | Maori => "mi"
  | Malayalam => "ml"
  | Welsh => "cy"
  | Slovak => "sk"
  | Telugu => "te"
  | Persian => "fa"
  | Latvian => "lv"
  | Bengali => "bn"
  | Serbian => "sr"
  | Azerbaijani => "az"
  | Slovenian => "sl"
  | Kannada => "kn"
  | Estonian => "et"
  | Macedonian => "mk"
  | Breton => "br"
  | Basque => "eu"
  | Icelandic => "is"
  | Armenian => "hy"
  | Nepali => "ne"
  | Mongolian => "mn"
  | Bosnian => "bs"
  | Kazakh => "kk"
  | Albanian => "sq"
  | Swahili => "sw"
  | Galician => "gl"
  | Marathi => "mr"
  | Punjabi => "pa"
  | Sinhala => "si"
  | Khmer => "km"
  | Shona => "sn"
  | Yoruba => "yo"
  | Somali => "so"
  | Afrikaans => "af"
  | Occitan => "oc"
  | Georgian => "ka"
  | Belarusian => "be"
  | Tajik => "tg"
  | Sindhi => "sd"
  | Gujarati => "gu"
  | Amharic => "am"
  | Yiddish => "yi"
  | Lao => "lo"
  | Uzbek => "uz"
  | Faroese => "fo"
  | Haitian_Creole => "ht"
  | Pashto => "ps"
  | Turkmen => "tk"
  | Nynorsk => "nn"
  | Maltese => "mt"
  | Sanskrit => "sa"
  | Luxembourgish => "lb"
  | Myanmar => "my"
  | Tibetan => "bo"
  | Tagalog => "tl"
  | Malagasy => "mg"
  | Assamese => "as"
  | Tatar => "tt"
  | Hawaiian => "haw"
  | Lingala => "ln"
  | Hausa => "ha"
  | Bashkir => "ba"
  | Javanese => "jw"
  | Sundanese => "su"
  | Cantonese => "yue"
  end.

Local Close Scope string_scope.

(** Every member, in the order of the switch. *)
Definition all : list Language :=
  [Auto; English; Chinese; German; Spanish; Russian; Korean; French;
   Japanese; Portuguese; Turkish; Polish; Catalan; Dutch; Arabic; Swedish;
   Italian; Indonesian; Hindi; Finnish; Vietnamese; Hebrew; Ukrainian;
   Greek; Malay; Czech; Romanian; Danish; Hungarian; Tamil; Norwegian;
   Thai; Urdu; Croatian; Bulgarian; Lithuanian; Latin; Maori; Malayalam;
   Welsh; Slovak; Telugu; Persian; Latvian; Bengali; Serbian; Azerbaijani;
   Slovenian; Kannada; Estonian; Macedonian; Breton; Basque; Icelandic;
   Armenian; Nepali; Mongolian; Bosnian; Kazakh; Albanian; Swahili;
   Galician; Marathi; Punjabi; Sinhala; Khmer; Shona; Yoruba; Somali;
   Afrikaans; Occitan; Georgian; Belarusian; Tajik; Sindhi; Gujarati;
   Amharic; Yiddish; Lao; Uzbek; Faroese; Haitian_Creole; Pashto; Turkmen;
   Nynorsk; Maltese; Sanskrit; Luxembourgish; Myanmar; Tibetan; Tagalog;
   Malagasy; Assamese; Tatar; Hawaiian; Lingala; Hausa; Bashkir; Javanese;
   Sundanese; Cantonese].

(** The first member of the table with the given code. *)
Definition of_code (code : string) : option Language :=
  find (fun language => String.eqb (language_to_code language) code) all.

End Lang.

(** ** The engine handle and load_model (lines 352-379) *)

(** [context_instance] as a pointer: null, the address of a live engine
    context, or the address of a context that was released. *)
Inductive context_ptr :=
| NullPtr
| LivePtr (ctx : whisper_context)
| ReleasedPtr.

(** The engine's [whisper_free], a collaborator: it releases a live
    context and does nothing on null; the pointer is passed by value, so
    the caller's copy keeps the address.  Releasing a released context is
    outside the defined language ([None]). *)
Definition whisper_free (ptr : context_ptr) : option context_ptr :=
  match ptr with
  | NullPtr => Some NullPtr
  | LivePtr _ => Some ReleasedPtr
  | ReleasedPtr => None
  end.

(** The engine's [whisper_init_from_buffer_with_params], a collaborator:
    from the bytes of the model and the [use_gpu] flag, a context or a
    null pointer. *)
Definition engine_init : Type := list Byte.byte -> bool -> option whisper_context.

(** What [load_model] reads and writes: [model] ([None] for a null
    reference, otherwise its content), [context_parameters.use_gpu] and
    [context_instance]. *)
Record engine_slot := {
  model : option (list Byte.byte);
  use_gpu : bool;
  slot_context : context_ptr
}.

(** Lines 357-368; the print of the system info is not kept. *)
Definition load_model (init : engine_init) (slot : engine_slot)
  : option engine_slot :=
  match whisper_free (slot_context slot) with
  | None => None
  | Some ptr =>
      let slot := {| model := model slot; use_gpu := use_gpu slot;
                     slot_context := ptr |} in
      match model slot with
      | None => Some slot
      | Some data =>
          match data with
          | [] => Some slot
          | _ =>
              Some {| model := model slot; use_gpu := use_gpu slot;
                      slot_context :=
                        match init data (use_gpu slot) with
                        | Some ctx => LivePtr ctx
                        | None => NullPtr
                        end |}
          end
      end
  end.

(** Lines 352-355. *)
Definition set_language_model (init : engine_init)
    (p_model : option (list Byte.byte)) (slot : engine_slot)
  : option engine_slot :=
  load_model init {| model := p_model; use_gpu := use_gpu slot;
                     slot_context := slot_context slot |}.

(** Lines 370-373. *)
Definition set_use_gpu (init : engine_init) (flag : bool) (slot : engine_slot)
  : option engine_slot :=
  load_model init {| model := model slot; use_gpu := flag;
                     slot_context := slot_context slot |}.

(** The handle as the null test of line 521 sees it: a released address is
    not null. *)
Definition is_null (ptr : context_ptr) : bool :=
  match ptr with NullPtr => true | _ => false end.

(** ** start_listen and stop_listen (lines 114-131) *)

(** [worker] (is there a [Thread] object), [is_running], and the number of
    times [worker->start] was called. *)
Record listener := {
  worker : bool;
  listening : bool;
  threads_started : nat
}.

Definition start_listen (l : listener) : listener :=
  let l := if negb (worker l)
           then {| worker := true; listening := listening l;
                   threads_started := threads_started l |}
           else l in
  if negb (listening l)
  then {| worker := worker l; listening := true;
          threads_started := S (threads_started l) |}
  else l.

Definition stop_listen (l : listener) : listener :=
  {| worker := false; listening := false;
     threads_started := threads_started l |}.

(** A call of the control surface. *)
Inductive listen_call := StartListen | StopListen.

Definition listen_step (l : listener) (c : listen_call) : listener :=
  match c with
  | StartListen => start_listen l
  | StopListen => stop_listen l
  end.

(** ** The filter as the spec words it

    [high_pass_spec alpha x] is the recurrence of the specification:
    [y[0] = x[0]] and [y[i] = alpha * (y[i-1] + x[i] - x[i-1])] over the raw
    samples [x].  It is used only to compare with [high_pass_filter]. *)

Local Open Scope Qc_scope.

Fixpoint high_pass_spec_from (alpha y x_prev : Qc) (xs : list Qc) : list Qc :=
  match xs with
  | [] => []
  | x :: xs' =>
      let y' := alpha * (y + x - x_prev) in
      y' :: high_pass_spec_from alpha y' x xs'
  end.

Definition high_pass_spec (alpha : Qc) (data : list Qc) : list Qc :=
  match data with
  | [] => []
  | x0 :: xs => x0 :: high_pass_spec_from alpha x0 x0 xs
  end.

(** What the in-place loop computes, as a structural recursion: [prev] is
    the content of [data[i - 1]] when index [i] is reached. *)
Fixpoint high_pass_run (alpha y prev : Qc) (xs : list Qc) : list Qc :=
  match xs with
  | [] => []
  | x :: xs' =>
      let y' := alpha * (y + x - prev) in
      y' :: high_pass_run alpha y' y' xs'
  end.

Local Close Scope Qc_scope.

(** ** Vocabulary of the statements *)

Local Open Scope string_scope.

(** No token of the list is a split candidate. *)
Definition no_candidate (tks : list token) : Prop :=
  forall tk, In tk tks -> is_split_candidate (tok_text tk) = false.

(** The scan state with [t] appended to its text. *)
Definition add_text (st : scan_state) (t : string) : scan_state :=
  {| msg_text := msg_text st ++ t;
     delete_target_t := delete_target_t st;
     find_delete_target_t := find_delete_target_t st;
     target_index := target_index st |}.

(** A token, written short. *)
Definition tok (t : string) (t0 t1 : Z) : token :=
  {| tok_text := t; tok_t0 := t0; tok_t1 := t1 |}.

Local Close Scope string_scope.

Local Open Scope string_scope.

(** A text is the token texts as they are, or with one marker right after
    the text of a split candidate. *)
Definition marker_shape (tks : list token) (txt : string) : Prop :=
  txt = token_texts tks
  \/ exists pre c post,
      tks = (pre ++ c :: post)%list
      /\ is_split_candidate (tok_text c) = true
      /\ txt = token_texts (pre ++ [c]) ++ SPLIT ++ token_texts post.

(** What holds of the scan state after the tokens [seen]. *)
Definition scan_inv (seen : list token) (st : scan_state) : Prop :=
  (find_delete_target_t st = false
   /\ msg_text st = token_texts seen
   /\ (delete_target_t st <> 0%Z ->
       exists pre p mid,
         seen = (pre ++ p :: mid)%list
         /\ is_split_candidate (tok_text p) = true
         /\ delete_target_t st = tok_t1 p
         /\ target_index st = String.length (token_texts (pre ++ [p]))))
  \/ (find_delete_target_t st = true /\ marker_shape seen (msg_text st)
      /\ exists c, In c seen /\ is_split_candidate (tok_text c) = true
                   /\ delete_target_t st = tok_t1 c).

Local Close Scope string_scope.

Local Open Scope Qc_scope.

(** The mean absolute amplitude of a chunk. *)
Definition sum_abs (data : list Qc) : Qc :=
  fold_left (fun acc x => acc + Qcabs x) data 0.

Definition mean_abs (data : list Qc) : Qc :=
  sum_abs data / Num.Z2Qc (Z.of_nat (List.length data)).

Local Close Scope Qc_scope.

(** ** States, turns and engines of the concrete runs *)

(** Thresholds of the stream example the worker follows. *)
Definition stream_params : params :=
  {| vad_thold := Q2Qc (6 # 10); freq_thold := Q2Qc 100 |}.

(** The same with the high-pass filter switched off. *)
Definition plain_params : params :=
  {| vad_thold := Q2Qc (6 # 10); freq_thold := 0%Qc |}.

(** A worker that has just entered its loop, over the given window. *)
Definition fresh_state (window : list Qc) : state :=
  {| s_queued_pcmf32 := [];
     s_transcribed_msgs := [];
     signals := [];
     pcmf32 := window;
     empty_iter_count := 0;
     need_close_segment := false |}.

(** A state whose next idle check is the 20th, over the given window. *)
Definition before_twentieth_check (window : list Qc) : state :=
  {| s_queued_pcmf32 := [];
     s_transcribed_msgs := [];
     signals := [];
     pcmf32 := window;
     empty_iter_count := 19;
     need_close_segment := false |}.

(** Nine and a quarter seconds of loud samples arrive at once: the window
    passes 66% of the iteration threshold while speech is not judged
    ended. *)
Definition long_queue_state : state :=
  {| s_queued_pcmf32 := repeat 1%Qc (Z.to_nat 147841);
     s_transcribed_msgs := [];
     signals := [];
     pcmf32 := [];
     empty_iter_count := 0;
     need_close_segment := false |}.

(** An engine that answers every window with the same code and segments. *)
Definition engine_returning (ret : Z) (segs : list segment) : whisper_context :=
  fun _ => (ret, segs).

Definition hello_engine : whisper_context :=
  engine_returning 0 [[tok "Hello" 0 30; tok "," 30 40; tok " world" 40 100]].

(** An engine whose comma ends 2.01 s into the window. *)
Definition comma_at_201_engine : whisper_context :=
  engine_returning 0
    [[tok "Hello" 0 150; tok "," 150 201; tok " world" 201 500]].

Definition idle_turn : turn :=
  {| is_running := true; arrived := [1%Qc]; context_instance := None;
     late := [] |}.

Definition failing_turn : turn :=
  {| is_running := true;
     arrived := [];
     context_instance := Some (engine_returning 7 []);
     late := [1%Qc] |}.

(** One second of loud samples queued, nothing in the window yet. *)
Definition one_second_state : state :=
  {| s_queued_pcmf32 := repeat 1%Qc (Z.to_nat 16000);
     s_transcribed_msgs := [];
     signals := [];
     pcmf32 := [];
     empty_iter_count := 0;
     need_close_segment := false |}.

(** The flag of an emitted message, if the turn emitted one. *)
Definition is_partial_of (o : outcome) : option bool :=
  match o with
  | Emitted msg => Some (is_partial msg)
  | _ => None
  end.

(** * Facts about the numbers *)

Module NumFacts.

Lemma ltb_lt (x y : Qc) : Num.ltb x y = true <-> (x < y)%Qc.
Proof.
  unfold Num.ltb. rewrite Qclt_alt.
  destruct (x ?= y)%Qc; split; congruence.
Qed.

Lemma ltb_irrefl (x : Qc) : Num.ltb x x = false.
Proof.
  destruct (Num.ltb x x) eqn:E; [|reflexivity].
  apply ltb_lt in E. apply Qclt_not_eq in E. congruence.
Qed.


End NumFacts.

(** * Properties of the filter *)

Section Filter.

Local Open Scope Qc_scope.

Lemma update_app_length {A} (pre : list A) (v x : A) (xs : list A) :
  update (List.length pre) v (pre ++ x :: xs) = pre ++ v :: xs.
Proof.
  induction pre as [|p pre IH]; simpl; [reflexivity|].
  now rewrite IH.
Qed.

Lemma nth_pred_length_snoc (pre : list Qc) (p : Qc) (rest : list Qc) :
  nth (List.length (pre ++ [p]) - 1) ((pre ++ [p]) ++ rest) 0 = p.
Proof.
  rewrite <- app_assoc, length_app. simpl.
  replace (List.length pre + 1 - 1)%nat with (List.length pre) by lia.
  now rewrite nth_middle.
Qed.

Lemma high_pass_loop_run (alpha : Qc) (xs : list Qc) :
  forall (pre : list Qc) (prev y : Qc),
    high_pass_loop alpha (List.length xs) (List.length (pre ++ [prev])) y
      ((pre ++ [prev]) ++ xs)
    = (pre ++ [prev]) ++ high_pass_run alpha y prev xs.
Proof.
  induction xs as [|x xs IH]; intros pre prev y; simpl.
  - reflexivity.
  - rewrite nth_pred_length_snoc, nth_middle, update_app_length.
    set (y' := alpha * (y + x - prev)).
    replace (S (List.length (pre ++ [prev])))
      with (List.length ((pre ++ [prev]) ++ [y']))
      by (rewrite !length_app; simpl; lia).
    change ((pre ++ [prev]) ++ y' :: xs)
      with ((pre ++ [prev]) ++ [y'] ++ xs).
    rewrite app_assoc, IH, <- app_assoc. reflexivity.
Qed.

(** The in-place loop, unfolded: from index 2 on, [data[i - 1]] already
    holds the previous output. *)
Lemma high_pass_filter_run (x0 : Qc) (xs : list Qc) (cutoff sample_rate : Qc) :
  high_pass_filter (x0 :: xs) cutoff sample_rate
  = x0 :: high_pass_run (filter_alpha cutoff sample_rate) x0 x0 xs.
Proof.
  unfold high_pass_filter. simpl List.length. simpl nth.
  replace (S (List.length xs) - 1)%nat with (List.length xs) by lia.
  exact (high_pass_loop_run _ xs [] x0 x0).
Qed.

Lemma high_pass_run_length (alpha : Qc) (xs : list Qc) :
  forall y prev, List.length (high_pass_run alpha y prev xs) = List.length xs.
Proof.
  induction xs as [|x xs IH]; intros y prev; simpl; [reflexivity|].
  now rewrite IH.
Qed.

Lemma high_pass_filter_length (data : list Qc) (cutoff sample_rate : Qc) :
  List.length (high_pass_filter data cutoff sample_rate) = List.length data.
Proof.
  destruct data as [|x0 xs]; [reflexivity|].
  rewrite high_pass_filter_run. simpl. now rewrite high_pass_run_length.
Qed.

Lemma high_pass_run_zeros (alpha : Qc) (n : nat) :
  high_pass_run alpha 0 0 (repeat 0 n) = repeat 0 n.
Proof.
  induction n as [|n IH]; simpl; [reflexivity|].
  replace (alpha * (0 + 0 - 0)) with 0 by ring.
  now rewrite IH.
Qed.

(** Filtering silence leaves silence. *)
Lemma high_pass_filter_zeros (n : nat) (cutoff sample_rate : Qc) :
  high_pass_filter (repeat 0 n) cutoff sample_rate = repeat 0 n.
Proof.
  destruct n as [|n]; [reflexivity|].
  simpl repeat. rewrite high_pass_filter_run. now rewrite high_pass_run_zeros.
Qed.

(** The first two outputs follow the specified recurrence for every
    input: only from index 2 on does the loop read an overwritten
    sample. *)
Lemma high_pass_filter_first_two (x0 x1 : Qc) (xs : list Qc)
    (cutoff sample_rate : Qc) :
  let y := high_pass_filter (x0 :: x1 :: xs) cutoff sample_rate in
  nth 0 y 0 = x0
  /\ nth 1 y 0 = filter_alpha cutoff sample_rate * (x0 + x1 - x0).
Proof. intros y. subst y. rewrite high_pass_filter_run. now split. Qed.

(** C4 (the code departs from the claim).  On the three raw samples
    1, 2, 4, with cutoff 100 Hz at 16 kHz, [high_pass_filter] keeps
    [y[0] = x[0]] and [y[1] = alpha*(y[0] + x[1] - x[0])], but its third
    output is [alpha*(y[1] + x[2] - y[1])]: the subtracted sample is the
    one the loop has just overwritten, not the raw [x[1]], so the result
    is not the specified recurrence over the raw input. *)
Theorem high_pass_filter_subtracts_filtered_sample :
  let alpha := filter_alpha (Q2Qc 100) (Q2Qc 16000) in
  let x := [Q2Qc 1; Q2Qc 2; Q2Qc 4] in
  let y := high_pass_filter x (Q2Qc 100) (Q2Qc 16000) in
  nth 0 y 0 = nth 0 x 0
  /\ nth 1 y 0 = alpha * (nth 0 y 0 + nth 1 x 0 - nth 0 x 0)
  /\ nth 2 y 0 = alpha * (nth 1 y 0 + nth 2 x 0 - nth 1 y 0)
  /\ nth 2 y 0 <> alpha * (nth 1 y 0 + nth 2 x 0 - nth 1 x 0)
  /\ y <> high_pass_spec alpha x.
Proof.
  intros alpha x y.
  assert (Hy : y = [Q2Qc 1; alpha * (Q2Qc 1 + Q2Qc 2 - Q2Qc 1);
                    alpha * (alpha * (Q2Qc 1 + Q2Qc 2 - Q2Qc 1) + Q2Qc 4
                             - alpha * (Q2Qc 1 + Q2Qc 2 - Q2Qc 1))])
    by (subst y x; rewrite high_pass_filter_run; reflexivity).
  rewrite Hy. subst x. cbn [nth].
  split; [reflexivity|]. split; [reflexivity|]. split; [reflexivity|].
  assert (Hne : alpha * (alpha * (Q2Qc 1 + Q2Qc 2 - Q2Qc 1) + Q2Qc 4
                         - alpha * (Q2Qc 1 + Q2Qc 2 - Q2Qc 1))
                <> alpha * (alpha * (Q2Qc 1 + Q2Qc 2 - Q2Qc 1) + Q2Qc 4
                            - Q2Qc 2)).
  { intros H. apply (f_equal this) in H. vm_compute in H. discriminate H. }
  split; [exact Hne|].
  intros H. apply (f_equal (fun l => nth 2 l 0)) in H.
  cbn [high_pass_spec high_pass_spec_from nth] in H. exact (Hne H).
Qed.

End Filter.

(** * Properties of the energy test *)

Section Vad.

Local Open Scope Qc_scope.

Lemma Qcabs_0 : Qcabs 0 = 0.
Proof. apply Qcabs_pos. apply Qcle_refl. Qed.

(** The floor is the [float] nearest to 1/10000. *)
Lemma energy_floor_literal : energy_floor = Q2Qc (Float.binary32 (1 # 10000)).
Proof. apply Qc_is_canon. reflexivity. Qed.

Lemma float_mul_0_r (x : Qc) : float_mul x 0 = 0.
Proof.
  unfold float_mul, Float.binary32, Float.round.
  cbn [this Q2Qc Qmult Qnum Qden Qred]. rewrite Z.mul_0_r.
  apply Qc_is_canon. reflexivity.
Qed.




Lemma energy_loop_zeros (n_samples n_samples_last : Z) (n : nat) :
  forall i, energy_loop n_samples n_samples_last i (repeat 0 n) 0 0 = (0, 0).
Proof.
  induction n as [|n IH]; intros i; simpl; [reflexivity|].
  rewrite Qcabs_0. replace (0 + 0) with 0 by ring.
  destruct (n_samples - n_samples_last <=? i)%Z; apply IH.
Qed.

Lemma energies_zeros (n : nat) (n_samples_last : Z) :
  energies (repeat 0 n) n_samples_last = (0, 0).
Proof.
  unfold energies. rewrite energy_loop_zeros.
  destruct (n_samples_last =? 0)%Z; f_equal; unfold Qcdiv; ring.
Qed.

(** The final test answers [true] exactly on near-silence that passes the
    ratio test. *)
Lemma vad_decision_true_iff (vad_thold energy_all energy_last : Qc) :
  vad_decision vad_thold energy_all energy_last = true
  <-> energy_all < energy_floor /\ energy_last < energy_floor
      /\ ~ float_mul vad_thold energy_all < energy_last.
Proof.
  unfold vad_decision. rewrite <- !NumFacts.ltb_lt.
  destruct (Num.ltb energy_all energy_floor),
           (Num.ltb energy_last energy_floor),
           (Num.ltb (float_mul vad_thold energy_all) energy_last);
    simpl; intuition congruence.
Qed.

Lemma vad_decision_silence (vad_thold : Qc) : vad_decision vad_thold 0 0 = true.
Proof.
  apply vad_decision_true_iff. split; [|split].
  - reflexivity.
  - reflexivity.
  - rewrite float_mul_0_r. intros H.
    apply Qclt_not_eq in H. congruence.
Qed.

Lemma vad_decision_at_floor (vad_thold energy_all energy_last : Qc) :
  energy_all = energy_floor \/ energy_last = energy_floor ->
  vad_decision vad_thold energy_all energy_last = false.
Proof.
  intros H. destruct (vad_decision vad_thold energy_all energy_last) eqn:E;
    [|reflexivity].
  apply vad_decision_true_iff in E. destruct E as (Ha & Hl & _).
  destruct H as [H|H]; subst.
  - apply Qclt_not_eq in Ha. congruence.
  - apply Qclt_not_eq in Hl. congruence.
Qed.

(** [vad_simple] never changes the number of samples. *)
Lemma vad_simple_length pcmf32 sample_rate last_ms vad_thold freq_thold :
  List.length (snd (vad_simple pcmf32 sample_rate last_ms vad_thold freq_thold))
  = List.length pcmf32.
Proof.
  unfold vad_simple.
  destruct (_ <=? _)%Z; [reflexivity|].
  destruct (Num.ltb 0 freq_thold);
    destruct (energies _ _); simpl;
    [apply high_pass_filter_length | reflexivity].
Qed.

Lemma wrap_int_small (z : Z) :
  (- 2 ^ 31 <= z < 2 ^ 31)%Z -> wrap_int z = z.
Proof.
  intros H. unfold wrap_int. rewrite Z.mod_small; lia.
Qed.

Lemma vad_simple_zeros (n : nat) (sample_rate last_ms : Z)
    (vad_thold freq_thold : Qc) :
  (Z.quot (wrap_int (sample_rate * last_ms)) 1000 < Z.of_nat n)%Z ->
  vad_simple (repeat 0 n) sample_rate last_ms vad_thold freq_thold
  = (true, repeat 0 n).
Proof.
  intros Hlast. unfold vad_simple. rewrite repeat_length.
  destruct (Z.leb_spec (Z.of_nat n)
              (Z.quot (wrap_int (sample_rate * last_ms)) 1000));
    [lia|].
  destruct (Num.ltb 0 freq_thold).
  - rewrite high_pass_filter_zeros, energies_zeros.
    now rewrite vad_decision_silence.
  - rewrite energies_zeros. now rewrite vad_decision_silence.
Qed.

(** Two equal samples with a recent window of one: both energies are the
    magnitude of the sample.  Every operation of the code is exact here
    (a sum of two equal floats, a division by 2 and one by 1). *)
Lemma energies_pair (x : Qc) : energies [x; x] 1 = (Qcabs x, Qcabs x).
Proof.
  unfold energies. cbn [List.length Z.of_nat Pos.of_succ_nat Pos.succ
                        energy_loop].
  change (2 - 1 <=? 0)%Z with false. change (2 - 1 <=? 0 + 1)%Z with true.
  change (1 =? 0)%Z with false. cbv iota beta.
  replace (Num.Z2Qc 1) with 1 by (apply Qc_is_canon; reflexivity).
  replace (Num.Z2Qc 2) with (1 + 1) by (apply Qc_is_canon; reflexivity).
  f_equal; field; intros H; apply (f_equal this) in H; discriminate H.
Qed.

(** C2 (the claim as stated fails).  32 samples of silence, a recent
    window of 16 of them: [vad_simple] answers [true]. *)
Lemma vad_simple_silence_is_not_false :
  (0 < Z.quot (16000 * 1) 1000 < Z.of_nat 32)%Z
  /\ fst (vad_simple (repeat 0 32) 16000 1 (Q2Qc (3 # 10)) (Q2Qc 100)) = true.
Proof.
  split; [split; reflexivity|].
  rewrite vad_simple_zeros; [reflexivity | vm_compute; reflexivity].
Qed.

(** C2 (amended).  On an all-zero buffer, at a positive sample rate and
    with a recent window that is positive and shorter than the buffer,
    [vad_simple] returns [true] and leaves the buffer all zero:
    near-total silence is what it reports.  (The arguments are [int]s and
    the buffer holds at most [INT_MAX] samples; at a positive rate [alpha]
    is a finite number, so the filter keeps the zeros.)  The floor is
    strict: the final test answers [false] whenever one of the two
    energies it is given equals [0.0001f].  So the two samples
    [0.0001f; 0.0001f] with a recent window of one give [false], whatever
    [vad_thold], while two samples of the next [float] below give [true]
    at [vad_thold = 1]. *)
Theorem vad_simple_silence_floor :
  (forall (n : nat) (sample_rate last_ms : Z) (vad_thold freq_thold : Qc),
      (0 < sample_rate <= INT_MAX)%Z ->
      (INT_MIN <= last_ms <= INT_MAX)%Z ->
      (Z.of_nat n <= INT_MAX)%Z ->
      (0 < Z.quot (wrap_int (sample_rate * last_ms)) 1000 < Z.of_nat n)%Z ->
      vad_simple (repeat 0 n) sample_rate last_ms vad_thold freq_thold
      = (true, repeat 0 n))
  /\ (forall vad_thold energy_all energy_last : Qc,
        energy_all = energy_floor \/ energy_last = energy_floor ->
        vad_decision vad_thold energy_all energy_last = false)
  /\ (forall vad_thold : Qc,
        vad_simple [energy_floor; energy_floor] 1000 1 vad_thold 0
        = (false, [energy_floor; energy_floor]))
  /\ (let below := Q2Qc (13743894 # 137438953472) in
      vad_simple [below; below] 1000 1 1 0 = (true, [below; below])).
Proof.
  split; [|split; [|split]].
  - intros n sample_rate last_ms vad_thold freq_thold _ _ _ [_ H].
    now apply vad_simple_zeros.
  - intros vad_thold energy_all energy_last.
    apply vad_decision_at_floor.
  - intros vad_thold. unfold vad_simple.
    change (Z.quot (wrap_int (1000 * 1)) 1000) with 1%Z.
    change (Z.of_nat (List.length [energy_floor; energy_floor]) <=? 1)%Z
      with false.
    rewrite NumFacts.ltb_irrefl. cbv iota beta zeta.
    rewrite energies_pair.
    rewrite vad_decision_at_floor; [reflexivity|].
    left. apply Qcabs_pos. discriminate.
  - vm_compute. reflexivity.
Qed.

Lemma vad_simple_silence_floor_witness :
  vad_simple (repeat 0 32) 16000 1 (Q2Qc (3 # 10)) (Q2Qc 100)
  = (true, repeat 0 32)
  /\ vad_decision (Q2Qc (3 # 10)) energy_floor 0 = false.
Proof.
  split.
  - apply (proj1 vad_simple_silence_floor); vm_compute;
      intuition congruence.
  - apply (proj1 (proj2 vad_simple_silence_floor)). now left.
Defined.

End Vad.

(** * Properties of the segment-splitting scan *)

Section Scan.

Local Open Scope string_scope.

Lemma append_assoc (a b c : string) : (a ++ b) ++ c = a ++ (b ++ c).
Proof. induction a as [|ch a IH]; simpl; [reflexivity | now rewrite IH]. Qed.

Lemma append_nil_r (a : string) : a ++ "" = a.
Proof. induction a as [|ch a IH]; simpl; [reflexivity | now rewrite IH]. Qed.

Lemma length_append (a b : string) :
  String.length (a ++ b) = (String.length a + String.length b)%nat.
Proof. induction a as [|ch a IH]; simpl; [reflexivity | now rewrite IH]. Qed.

(** Inserting at the end of a prefix puts the text right after it. *)
Lemma insert_after_prefix (a ins b : string) :
  insert (String.length a) ins (a ++ b) = a ++ ins ++ b.
Proof. induction a as [|ch a IH]; simpl; [reflexivity | now rewrite IH]. Qed.

Lemma insert_length (pos : nat) (ins s : string) :
  String.length (insert pos ins s)
  = (String.length ins + String.length s)%nat.
Proof.
  revert pos. induction s as [|ch s IH]; intros [|pos]; simpl;
    rewrite ?length_append, ?IH; simpl; lia.
Qed.

Lemma token_texts_app (l1 l2 : list token) :
  token_texts (l1 ++ l2) = token_texts l1 ++ token_texts l2.
Proof.
  induction l1 as [|tk l1 IH]; simpl; [reflexivity|].
  now rewrite IH, append_assoc.
Qed.

Lemma add_text_add_text st a b :
  add_text (add_text st a) b = add_text st (a ++ b).
Proof. unfold add_text; simpl. now rewrite append_assoc. Qed.

Lemma add_text_nil st : add_text st "" = st.
Proof. destruct st; unfold add_text; simpl. now rewrite append_nil_r. Qed.

Variable half_t : Z.
Variable speech_has_end : bool.

(** Tokens that are no split candidates are appended as they are. *)
Lemma scan_no_candidate (tks : list token) :
  forall st, no_candidate tks ->
    fold_left (scan_token half_t speech_has_end) tks st
    = add_text st (token_texts tks).
Proof.
  induction tks as [|tk tks IH]; intros st Hno; simpl.
  - now rewrite add_text_nil.
  - rewrite IH by (intros x Hx; apply Hno; now right).
    assert (Hstep : scan_token half_t speech_has_end st tk
                    = add_text st (tok_text tk)).
    { unfold scan_token, add_text. rewrite (Hno tk) by now left.
      destruct (find_delete_target_t st); reflexivity. }
    rewrite Hstep. apply add_text_add_text.
Qed.

(** Once the confirmed split is found, every token is appended as it is. *)
Lemma scan_after_found (tks : list token) :
  forall st, find_delete_target_t st = true ->
    fold_left (scan_token half_t speech_has_end) tks st
    = add_text st (token_texts tks).
Proof.
  induction tks as [|tk tks IH]; intros st Hfound; simpl.
  - now rewrite add_text_nil.
  - assert (Hstep : scan_token half_t speech_has_end st tk
                    = add_text st (tok_text tk))
      by (unfold scan_token, add_text; now rewrite Hfound).
    rewrite Hstep, IH by exact Hfound. apply add_text_add_text.
Qed.

(** A list of tokens has no split candidate, or a first one. *)
Lemma first_candidate (tks : list token) :
  no_candidate tks
  \/ exists mid c post,
      tks = (mid ++ c :: post)%list /\ no_candidate mid
      /\ is_split_candidate (tok_text c) = true.
Proof.
  induction tks as [|tk tks IH].
  - left. intros x [].
  - destruct (is_split_candidate (tok_text tk)) eqn:E.
    + right. exists [], tk, tks. repeat split; [intros x []| exact E].
    + destruct IH as [Hno | (mid & c & post & -> & Hmid & Hc)].
      * left. intros x [<-|Hx]; [exact E | now apply Hno].
      * right. exists (tk :: mid), c, post. repeat split; [|exact Hc].
        intros x [<-|Hx]; [exact E | now apply Hmid].
Qed.

(** The insertion offset never exceeds the text built so far, so
    [insert] is always called within the string. *)
Lemma scan_target_index_in_range (tks : list token) :
  forall st, (target_index st <= String.length (msg_text st))%nat ->
    let st' := fold_left (scan_token half_t speech_has_end) tks st in
    (target_index st' <= String.length (msg_text st'))%nat.
Proof.
  induction tks as [|tk tks IH]; intros st Hst; simpl; [exact Hst|].
  apply IH. unfold scan_token.
  destruct (find_delete_target_t st), (is_split_candidate (tok_text tk)),
    (tok_t1 tk <? half_t)%Z, (delete_target_t st =? 0)%Z, speech_has_end;
    simpl; rewrite ?length_append, ?insert_length; simpl; lia.
Qed.

End Scan.

Section Split.

Local Open Scope string_scope.

(** C1 (the claim as stated fails).  One segment [","], [" hello"], ["."]
    with end timestamps 0, 50 and 100: [half_t] is 50, the comma is the
    only split candidate below it and the full stop a later candidate at
    or above it, speech has not ended; yet the marker follows the full
    stop, not the comma.  A recorded timestamp of 0 reads as "no
    provisional split point". *)
Lemma split_marker_zero_timestamp :
  let segs := [[tok "," 0 0; tok " hello" 0 50; tok "." 50 100]] in
  half_t_of segs = Some 50%Z
  /\ is_split_candidate "," = true /\ (0 < 50)%Z
  /\ is_split_candidate " hello" = false
  /\ is_split_candidate "." = true /\ (50 <= 100)%Z
  /\ option_map msg_text (split_scan false "" segs)
     = Some ", hello.{SPLIT}"
  /\ option_map msg_text (split_scan false "" segs)
     <> Some ",{SPLIT} hello.".
Proof. repeat split; try reflexivity; discriminate. Qed.

(** A second way out of the claim's wording: a candidate at or above
    [half_t] that comes before the provisional one takes the marker. *)
Example split_marker_confirmed_first :
  let segs := [[tok "." 0 100; tok "," 0 10; tok "!" 0 100; tok "x" 0 100]] in
  half_t_of segs = Some 50%Z
  /\ option_map msg_text (split_scan false "" segs) = Some ".{SPLIT},!x".
Proof. split; reflexivity. Qed.

(** C1 (amended).  Let the tokens of all segments, in scan order, be
    [pre], then a split candidate [p] with [t1 < half_t] and [t1 <> 0],
    then [rest], where [pre] holds no split candidate and every split
    candidate of [rest] has [t1 >= half_t].  With speech not judged ended,
    the message text is the token texts in order with one [{SPLIT}]
    marker right after the text of [p], and the recorded split timestamp
    is the [t1] of [p]. *)
Theorem split_marker_at_provisional :
  forall (segs : list segment) (pre rest : list token) (p : token)
         (half_t : Z),
    List.concat segs = (pre ++ p :: rest)%list ->
    half_t_of segs = Some half_t ->
    no_candidate pre ->
    is_split_candidate (tok_text p) = true ->
    (tok_t1 p < half_t)%Z ->
    tok_t1 p <> 0%Z ->
    (forall c, In c rest -> is_split_candidate (tok_text c) = true ->
               (half_t <= tok_t1 c)%Z) ->
    exists st,
      split_scan false "" segs = Some st
      /\ msg_text st
         = token_texts pre ++ tok_text p ++ SPLIT ++ token_texts rest
      /\ delete_target_t st = tok_t1 p.
Proof.
  intros segs pre rest p half_t Hconcat Hhalf Hpre Hp Hlt Hnz Hrest.
  unfold split_scan, scan_tokens. rewrite Hhalf, Hconcat.
  rewrite fold_left_app, (scan_no_candidate _ _ pre) by exact Hpre.
  cbn [fold_left]. unfold scan_token at 2.
  cbn [add_text scan_init find_delete_target_t negb msg_text
       delete_target_t target_index].
  rewrite Hp. destruct (Z.ltb_spec (tok_t1 p) half_t) as [_|]; [|lia].
  rewrite <- length_append.
  set (body := ("" ++ token_texts pre) ++ tok_text p).
  destruct (first_candidate rest) as [Hno | (mid & c & post & -> & Hmid & Hc)].
  - rewrite (scan_no_candidate _ _ rest) by exact Hno.
    unfold scan_finish, add_text. cbn.
    destruct (Z.eqb_spec (tok_t1 p) 0) as [|_]; [contradiction|]. cbn.
    eexists. split; [reflexivity|]. cbn. split; [|reflexivity].
    rewrite insert_after_prefix. subst body. cbn.
    now rewrite append_assoc.
  - rewrite fold_left_app, (scan_no_candidate _ _ mid) by exact Hmid.
    cbn [fold_left]. unfold scan_token at 2.
    cbn [add_text find_delete_target_t negb msg_text
         delete_target_t target_index].
    rewrite Hc.
    assert (Hge : (half_t <= tok_t1 c)%Z)
      by (apply Hrest; [apply in_or_app; right; now left | exact Hc]).
    destruct (Z.ltb_spec (tok_t1 c) half_t) as [|_]; [lia|].
    destruct (Z.eqb_spec (tok_t1 p) 0) as [|_]; [contradiction|].
    rewrite scan_after_found by reflexivity.
    unfold scan_finish, add_text. cbn.
    destruct (Z.eqb_spec (tok_t1 p) 0) as [|_]; [contradiction|]. cbn.
    eexists. split; [reflexivity|]. cbn. split; [|reflexivity].
    rewrite insert_after_prefix. subst body. cbn.
    rewrite token_texts_app. cbn.
    now rewrite !append_assoc.
Qed.

Lemma split_marker_at_provisional_witness :
  exists st,
    split_scan false ""
      [[tok "Hello" 0 30; tok "," 30 40]; [tok " world" 40 90; tok "." 90 100]]
    = Some st
    /\ msg_text st = "Hello,{SPLIT} world."
    /\ delete_target_t st = 40%Z.
Proof.
  apply (split_marker_at_provisional
           [[tok "Hello" 0 30; tok "," 30 40];
            [tok " world" 40 90; tok "." 90 100]]
           [tok "Hello" 0 30] [tok " world" 40 90; tok "." 90 100]
           (tok "," 30 40) 50%Z).
  - reflexivity.
  - reflexivity.
  - intros tk [<-|[]]. reflexivity.
  - reflexivity.
  - reflexivity.
  - discriminate.
  - intros c [<-|[<-|[]]] Hc; [discriminate Hc | cbn; lia].
Defined.

End Split.

(** * Properties of the worker loop *)

Section Worker.

Variable p : params.

Lemma check_queue_enough (st : state) :
  (WHISPER_SAMPLE_RATE <= Z.of_nat (List.length (s_queued_pcmf32 st)))%Z ->
  check_queue st = (set_idle (empty_iter_count st) false st, true).
Proof.
  intros H. unfold check_queue. cbn [set_idle s_queued_pcmf32].
  destruct (Z.ltb_spec (Z.of_nat (List.length (s_queued_pcmf32 st)))
              WHISPER_SAMPLE_RATE); [lia | reflexivity].
Qed.

(** Below one second of queued audio the turn idles, unless this is the
    20th idle check in a row over a non-empty window. *)
Lemma check_queue_short (st : state) :
  (Z.of_nat (List.length (s_queued_pcmf32 st)) < WHISPER_SAMPLE_RATE)%Z ->
  check_queue st
  = if (20 <=? empty_iter_count st + 1)%Z
       && (0 <? Z.of_nat (List.length (pcmf32 st)))%Z
    then (set_idle 0 true st, true)
    else (set_idle (Z.rem (empty_iter_count st + 1) 20) false st, false).
Proof.
  intros H. unfold check_queue. cbn [set_idle s_queued_pcmf32 pcmf32 empty_iter_count].
  destruct (Z.ltb_spec (Z.of_nat (List.length (s_queued_pcmf32 st)))
              WHISPER_SAMPLE_RATE); [|lia].
  destruct ((20 <=? empty_iter_count st + 1)%Z
            && (0 <? Z.of_nat (List.length (pcmf32 st)))%Z); reflexivity.
Qed.

(** C5 (the code departs from the claim).  With exactly [trigger_samples]
    = 6400 samples queued (400 ms at 16 kHz), an empty window, idle count
    0 and no forced close pending, the turn does not drain the queue or
    run inference: it idles, counts the idle check and emits nothing.
    The check at line 493 compares the queue with [WHISPER_SAMPLE_RATE]
    (one second, 16000 samples); [n_samples_trigger] is never read. *)
Theorem trigger_samples_queued_turn_idles :
  let st := {| s_queued_pcmf32 := repeat 1%Qc (Z.to_nat 6400);
               s_transcribed_msgs := [];
               signals := [];
               pcmf32 := [];
               empty_iter_count := 0;
               need_close_segment := false |} in
  n_samples_trigger = 6400%Z
  /\ Z.of_nat (List.length (s_queued_pcmf32 st)) = n_samples_trigger
  /\ forall (context_instance : option whisper_context) (late : list Qc),
       run_iteration p context_instance late st
       = (set_idle 1 false st, Idle).
Proof.
  intros st. split; [reflexivity|]. split; [reflexivity|].
  intros context_instance late. unfold run_iteration.
  rewrite check_queue_short by (subst st; vm_compute; reflexivity).
  reflexivity.
Qed.

(** The check touches only the idle counter and the forced-close flag. *)
Lemma check_queue_frame (st : state) :
  let st1 := fst (check_queue st) in
  s_queued_pcmf32 st1 = s_queued_pcmf32 st
  /\ s_transcribed_msgs st1 = s_transcribed_msgs st
  /\ signals st1 = signals st
  /\ pcmf32 st1 = pcmf32 st.
Proof.
  unfold check_queue. cbn [set_idle s_queued_pcmf32 pcmf32 empty_iter_count].
  destruct (_ <? _)%Z; [|now cbn].
  destruct (_ && _); now cbn.
Qed.

Lemma transcribe_engine_failed (whisper_full : whisper_context) (st : state) :
  fst (whisper_full (pcmf32 st)) <> 0%Z ->
  transcribe p (Some whisper_full) st
  = (st, EngineFailed (fst (whisper_full (pcmf32 st)))).
Proof.
  intros Hret. unfold transcribe.
  destruct (whisper_full (pcmf32 st)) as [ret segs]. cbn [fst] in *.
  destruct (Z.eqb_spec ret 0); [contradiction | reflexivity].
Qed.

(** C9.  In a turn that goes on to drain the queue and then finds the
    engine handle missing, or gets a non-zero code from the inference
    call, no signal is emitted and nothing joins the result sink, the
    window is the one the drain produced (old window, then the queue,
    then what arrived before the drain), the queue is empty, and the loop
    goes on with its next turn from that state. *)
Theorem engine_failure_abandons_turn :
  forall (t : turn) (rest : list turn) (st : state),
    let st0 := set_queue (s_queued_pcmf32 st ++ arrived t) st in
    let window := pcmf32 st ++ (s_queued_pcmf32 st ++ arrived t) ++ late t in
    is_running t = true ->
    snd (check_queue st0) = true ->
    (context_instance t = None
     \/ exists whisper_full,
         context_instance t = Some whisper_full
         /\ fst (whisper_full window) <> 0%Z) ->
    exists st',
      (run_iteration p (context_instance t) (late t) st0 = (st', EngineMissing)
       \/ exists ret, ret <> 0%Z /\
            run_iteration p (context_instance t) (late t) st0
            = (st', EngineFailed ret))
      /\ signals st' = signals st
      /\ s_transcribed_msgs st' = s_transcribed_msgs st
      /\ pcmf32 st' = window
      /\ s_queued_pcmf32 st' = []
      /\ run p (t :: rest) st = run p rest st'.
Proof.
  intros t rest st st0 window Hrun Hgo Hfail.
  cbn [run]. rewrite Hrun. fold st0.
  unfold run_iteration.
  destruct (check_queue_frame st0) as (Hq & Hm & Hs & Hw).
  destruct (check_queue st0) as [st1 go]. cbn [fst snd] in *. subst go.
  set (st2 := drain_queue (set_queue (s_queued_pcmf32 st1 ++ late t) st1)).
  assert (Hwindow : pcmf32 st2 = window)
    by (subst st2 window; cbn; now rewrite Hw, Hq).
  assert (Hframe : signals st2 = signals st
                   /\ s_transcribed_msgs st2 = s_transcribed_msgs st
                   /\ s_queued_pcmf32 st2 = [])
    by (subst st2; cbn; now rewrite Hs, Hm).
  destruct Hframe as (Hs2 & Hm2 & Hq2).
  destruct Hfail as [Hnone | (whisper_full & Hsome & Hret)].
  - rewrite Hnone. exists st2. cbn [transcribe fst].
    repeat split; try assumption. now left.
  - rewrite Hsome, transcribe_engine_failed by (now rewrite Hwindow).
    exists st2. cbn [fst]. repeat split; try assumption.
    right. exists (fst (whisper_full (pcmf32 st2))).
    split; [now rewrite Hwindow | reflexivity].
Qed.

(** One idle check below the 20th only counts. *)
Lemma run_iteration_idle (context_instance : option whisper_context)
    (late : list Qc) (st : state) :
  (0 <= empty_iter_count st)%Z ->
  (empty_iter_count st + 1 < 20)%Z ->
  (Z.of_nat (List.length (s_queued_pcmf32 st)) < WHISPER_SAMPLE_RATE)%Z ->
  run_iteration p context_instance late st
  = (set_idle (empty_iter_count st + 1) false st, Idle).
Proof.
  intros Hpos Hcount Hlen. unfold run_iteration.
  rewrite check_queue_short by exact Hlen.
  destruct (Z.leb_spec 20 (empty_iter_count st + 1)); [lia|].
  cbn [andb]. now rewrite Z.rem_small by lia.
Qed.

(** Consecutive idle checks below the 20th only count, while the queue
    collects what the producer adds. *)
Lemma run_idle_turns (turns : list turn) :
  forall st : state,
    turns <> [] ->
    Forall (fun t => is_running t = true) turns ->
    (0 <= empty_iter_count st)%Z ->
    (empty_iter_count st + Z.of_nat (List.length turns) < 20)%Z ->
    (Z.of_nat (List.length
                 (s_queued_pcmf32 st ++ List.concat (map arrived turns)))
     < WHISPER_SAMPLE_RATE)%Z ->
    run p turns st
    = set_idle (empty_iter_count st + Z.of_nat (List.length turns)) false
        (set_queue (s_queued_pcmf32 st ++ List.concat (map arrived turns)) st).
Proof.
  induction turns as [|t turns IH]; intros st Hne Hrun Hpos Hcount Hlen;
    [contradiction|].
  inversion Hrun as [|? ? Ht Hturns]; subst.
  cbn [run]. rewrite Ht.
  cbn [map List.concat List.length] in *.
  rewrite !length_app in Hlen.
  rewrite run_iteration_idle;
    cbn [set_queue empty_iter_count s_queued_pcmf32];
    rewrite ?length_app; try lia.
  cbn [fst]. destruct turns as [|t' turns].
  - cbn [run map List.concat List.length]. now rewrite app_nil_r.
  - rewrite IH; try discriminate; try assumption;
      cbn [set_idle set_queue empty_iter_count s_queued_pcmf32];
      rewrite ?length_app in *; try lia.
    unfold set_idle, set_queue. cbn. f_equal; [now rewrite <- app_assoc | lia].
Qed.

(** A forced-close turn whose engine call succeeds emits a final
    message and empties the window. *)
Lemma transcribe_forced_close (whisper_full : whisper_context)
    (segs : list segment) (st : state) :
  need_close_segment st = true ->
  whisper_full (pcmf32 st) = (0%Z, segs) ->
  half_t_of segs <> None ->
  exists sc,
    split_scan true EmptyString segs = Some sc
    /\ transcribe p (Some whisper_full) st
       = (emit {| text := msg_text sc; is_partial := false |}
            (set_pcmf32 [] st),
          Emitted {| text := msg_text sc; is_partial := false |}).
Proof.
  intros Hclose Hfull Hhalf. unfold transcribe. rewrite Hfull. cbn [Z.eqb negb].
  unfold judge_speech_end. rewrite Hclose.
  destruct (vad_simple (pcmf32 st) WHISPER_SAMPLE_RATE 0 (vad_thold p)
              (freq_thold p)) as [silent window].
  assert (Htext : (if silent then EmptyString else EmptyString) = EmptyString)
    by now destruct silent.
  rewrite Htext. unfold split_scan.
  destruct (half_t_of segs) as [half_t|]; [|contradiction].
  eexists. split; [reflexivity|].
  rewrite orb_true_r. unfold retained_window. now rewrite orb_true_r.
Qed.

Lemma judge_speech_end_forced (st : state) :
  need_close_segment st = true ->
  snd (fst (judge_speech_end p st)) = true.
Proof.
  intros Hclose. unfold judge_speech_end. rewrite Hclose.
  now destruct (vad_simple _ _ _ _ _).
Qed.

(** C7.  From an idle counter of 0 and over a non-empty window, let 20
    turns in a row each find the queue below the gate of line 493 (one
    second of audio, so in particular below [trigger_samples]).  The
    first 19 only count: counter 19, window and signals untouched.  The
    20th check marks forced close and resets the counter to 0; the turn
    drains what little is queued, judges speech ended and, when the engine
    call succeeds, emits one message with [is_partial = false] and empties
    the window.
    On every skip path the counter becomes its successor modulo 20. *)
Theorem forced_close_after_twenty_idle_checks :
  forall (turns19 : list turn) (t20 : turn) (st : state),
    let queued19 := s_queued_pcmf32 st ++ List.concat (map arrived turns19) in
    let queued20 := queued19 ++ arrived t20 in
    empty_iter_count st = 0%Z ->
    pcmf32 st <> [] ->
    List.length turns19 = 19%nat ->
    Forall (fun t => is_running t = true) turns19 ->
    (Z.of_nat (List.length queued20) < WHISPER_SAMPLE_RATE)%Z ->
    let st19 := run p turns19 st in
    let st20 := set_queue queued20 st19 in
    st19 = set_idle 19 false (set_queue queued19 st)
    /\ check_queue st20 = (set_idle 0 true st20, true)
    /\ snd (fst (judge_speech_end p
                   (drain_queue
                      (set_queue (queued20 ++ late t20)
                         (set_idle 0 true st20))))) = true
    /\ (forall (whisper_full : whisper_context) (segs : list segment),
          whisper_full (pcmf32 st ++ queued20 ++ late t20) = (0%Z, segs) ->
          half_t_of segs <> None ->
          exists msg st',
            run_iteration p (Some whisper_full) (late t20) st20
            = (st', Emitted msg)
            /\ is_partial msg = false
            /\ signals st' = signals st ++ [s_transcribed_msgs st ++ [msg]]
            /\ pcmf32 st' = []
            /\ empty_iter_count st' = 0%Z)
    /\ (forall st_any : state,
          (0 <= empty_iter_count st_any)%Z ->
          snd (check_queue st_any) = false ->
          empty_iter_count (fst (check_queue st_any))
          = ((empty_iter_count st_any + 1) mod 20)%Z).
Proof.
  intros turns19 t20 st queued19 queued20 Hzero Hwin Hlen Hrun Hshort st19 st20.
  assert (Hq19 : (Z.of_nat (List.length queued19) < WHISPER_SAMPLE_RATE)%Z)
    by (subst queued20; rewrite length_app in Hshort; lia).
  assert (H19 : st19 = set_idle 19 false (set_queue queued19 st)).
  { subst st19. rewrite run_idle_turns; try assumption; try lia.
    - now rewrite Hzero, Hlen.
    - intros ->. discriminate Hlen. }
  assert (Hcheck : check_queue st20 = (set_idle 0 true st20, true)).
  { rewrite check_queue_short by (subst st20; exact Hshort).
    subst st20. rewrite H19. cbn [set_queue set_idle empty_iter_count pcmf32].
    destruct (pcmf32 st); [contradiction | reflexivity]. }
  split; [exact H19|]. split; [exact Hcheck|].
  split; [now apply judge_speech_end_forced|]. split.
  - intros whisper_full segs Hfull Hhalf.
    unfold run_iteration. rewrite Hcheck.
    set (st21 := drain_queue _).
    destruct (transcribe_forced_close whisper_full segs st21)
      as (sc & _ & Htr).
    + reflexivity.
    + subst st21 st20. rewrite H19. cbn. now rewrite <- Hfull, app_assoc.
    + exact Hhalf.
    + rewrite Htr. do 2 eexists. split; [reflexivity|].
      subst st21 st20. rewrite H19. cbn. now repeat split.
  - intros st_any Hpos Hskip.
    destruct (Z.lt_ge_cases (Z.of_nat (List.length (s_queued_pcmf32 st_any)))
                WHISPER_SAMPLE_RATE) as [Hlt|Hge].
    + rewrite check_queue_short in * by exact Hlt.
      destruct (_ && _); [discriminate Hskip|].
      cbn. apply Z.rem_mod_nonneg; lia.
    + rewrite check_queue_enough in Hskip by exact Hge. discriminate Hskip.
Qed.

Lemma judge_speech_end_text (st : state) :
  fst (fst (judge_speech_end p st)) = EmptyString.
Proof.
  unfold judge_speech_end. destruct (need_close_segment st); [|reflexivity].
  destruct (vad_simple _ _ _ _ _) as [[] window]; reflexivity.
Qed.

(** Speech not judged ended: no forced close, and the window is as the
    drain left it. *)
Lemma judge_speech_end_not_ended (st : state) :
  snd (fst (judge_speech_end p st)) = false ->
  snd (judge_speech_end p st) = pcmf32 st.
Proof.
  unfold judge_speech_end. destruct (need_close_segment st); [|reflexivity].
  destruct (vad_simple _ _ _ _ _) as [silent window]. discriminate.
Qed.

Lemma judge_speech_end_length (st : state) :
  List.length (snd (judge_speech_end p st)) = List.length (pcmf32 st).
Proof.
  unfold judge_speech_end. destruct (need_close_segment st); [|reflexivity].
  pose proof (vad_simple_length (pcmf32 st) WHISPER_SAMPLE_RATE 0
                (vad_thold p) (freq_thold p)) as H.
  destruct (vad_simple _ _ _ _ _) as [silent window]. exact H.
Qed.

(** What a turn that emits a message went through. *)
Lemma transcribe_emitted (whisper_full : whisper_context) (st st' : state)
    (msg : transcribed_msg) :
  transcribe p (Some whisper_full) st = (st', Emitted msg) ->
  let speech_has_end := snd (fst (judge_speech_end p st)) in
  let window := snd (judge_speech_end p st) in
  exists sc,
    fst (whisper_full (pcmf32 st)) = 0%Z
    /\ split_scan speech_has_end EmptyString (snd (whisper_full (pcmf32 st)))
       = Some sc
    /\ text msg = msg_text sc
    /\ is_partial msg
       = negb ((n_samples_iter_threshold * 66
                <? 100 * Z.of_nat (List.length window))%Z
               || speech_has_end)
    /\ st' = emit msg (set_pcmf32 (pcmf32 st') st)
    /\ (is_partial msg = false ->
        retained_window (delete_target_t sc) speech_has_end window
        = Some (pcmf32 st'))
    /\ (is_partial msg = true -> pcmf32 st' = window).
Proof.
  unfold transcribe. intros H.
  pose proof (judge_speech_end_text st) as Htext.
  destruct (whisper_full (pcmf32 st)) as [ret segs].
  destruct (Z.eqb_spec ret 0) as [->|]; [|discriminate H]. cbn [negb] in H.
  destruct (judge_speech_end p st) as [[text0 speech_has_end] window].
  cbn [fst snd] in *. subst text0.
  destruct (split_scan speech_has_end EmptyString segs) as [sc|];
    [|discriminate H].
  exists sc.
  destruct ((n_samples_iter_threshold * 66
             <? 100 * Z.of_nat (List.length window))%Z || speech_has_end).
  - destruct (retained_window _ _ _) as [last|]; [|discriminate H].
    injection H as <- <-. cbn. repeat split; congruence.
  - injection H as <- <-. cbn. repeat split; congruence.
Qed.

(** The window after a turn that emits a final message
    ([is_partial = false]): empty if the scan recorded no split point
    (timestamp 0) or speech was judged ended; otherwise its suffix from
    the sample index that line 626 computes, which is empty when that
    index is at or beyond the length of the window.  (A negative index
    also leaves the window empty: it is compared as an unsigned
    number.) *)
Lemma finalizing_turn_window :
  forall (context_instance : option whisper_context) (late : list Qc)
         (st0 st' : state) (msg : transcribed_msg),
    run_iteration p context_instance late st0 = (st', Emitted msg) ->
    is_partial msg = false ->
    let st1 := fst (check_queue st0) in
    let st := drain_queue (set_queue (s_queued_pcmf32 st1 ++ late) st1) in
    let speech_has_end := snd (fst (judge_speech_end p st)) in
    exists (whisper_full : whisper_context) (sc : scan_state),
      context_instance = Some whisper_full
      /\ pcmf32 st = pcmf32 st0 ++ s_queued_pcmf32 st0 ++ late
      /\ split_scan speech_has_end EmptyString
           (snd (whisper_full (pcmf32 st))) = Some sc
      /\ (delete_target_t sc = 0%Z \/ speech_has_end = true ->
          pcmf32 st' = [])
      /\ (delete_target_t sc <> 0%Z -> speech_has_end = false ->
          let target_index := target_sample_index (delete_target_t sc) in
          (INT_MIN <= target_index <= INT_MAX)%Z
          /\ ((0 <= target_index)%Z ->
              pcmf32 st'
              = if (Z.of_nat (List.length (pcmf32 st)) <=? target_index)%Z
                then []
                else skipn (Z.to_nat target_index) (pcmf32 st))
          /\ ((target_index < 0)%Z ->
              (Z.of_nat (List.length (pcmf32 st)) < 2 ^ 63)%Z ->
              pcmf32 st' = [])).
Proof.
  intros context_instance late st0 st' msg Hrun Hfinal.
  unfold run_iteration in Hrun.
  destruct (check_queue_frame st0) as (Hq & _ & _ & Hw).
  destruct (check_queue st0) as [st1 go]. cbn [fst] in *.
  set (st := drain_queue (set_queue (s_queued_pcmf32 st1 ++ late) st1)) in *.
  set (speech_has_end := snd (fst (judge_speech_end p st))).
  destruct go; [|discriminate Hrun].
  destruct context_instance as [whisper_full|]; [|discriminate Hrun].
  apply transcribe_emitted in Hrun.
  destruct Hrun as (sc & _ & Hscan & _ & _ & _ & Hkeep & _).
  specialize (Hkeep Hfinal). fold speech_has_end in Hscan, Hkeep.
  exists whisper_full, sc.
  split; [reflexivity|].
  split; [subst st; cbn; now rewrite Hw, Hq|].
  split; [exact Hscan|].
  unfold retained_window in Hkeep. split.
  - intros [Hzero | Hend].
    + rewrite Hzero in Hkeep. cbn [Z.eqb orb] in Hkeep. congruence.
    + rewrite Hend, orb_true_r in Hkeep. congruence.
  - intros Hsplit Hnot.
    set (target_index := target_sample_index (delete_target_t sc)) in *.
    rewrite Hnot in Hkeep.
    rewrite (judge_speech_end_not_ended st Hnot) in Hkeep.
    destruct (Z.eqb_spec (delete_target_t sc) 0); [contradiction|].
    cbn [orb] in Hkeep.
    destruct ((target_index <? INT_MIN)%Z || (INT_MAX <? target_index)%Z)
      eqn:Hrange; [discriminate Hkeep|].
    apply orb_false_elim in Hrange. destruct Hrange as [Hmin Hmax].
    apply Z.ltb_ge in Hmin. apply Z.ltb_ge in Hmax.
    split; [split; assumption|].
    unfold INT_MIN in Hmin. unfold INT_MAX in Hmax.
    change (2 ^ 31)%Z with 2147483648%Z in Hmin, Hmax.
    change (2 ^ 64)%Z with 18446744073709551616%Z in Hkeep.
    split.
    + intros Hnonneg.
      rewrite Z.mod_small in Hkeep by lia.
      destruct (Z.of_nat (List.length (pcmf32 st)) <=? target_index)%Z;
        congruence.
    + intros Hneg Hsize.
      change (2 ^ 63)%Z with 9223372036854775808%Z in Hsize.
      replace (target_index mod 18446744073709551616)%Z
        with ((target_index + 1 * 18446744073709551616)
              mod 18446744073709551616)%Z in Hkeep
        by apply Z_mod_plus_full.
      rewrite Z.mod_small in Hkeep by lia.
      destruct (Z.leb_spec (Z.of_nat (List.length (pcmf32 st)))
                  (target_index + 1 * 18446744073709551616)%Z);
        [congruence | lia].
Qed.

End Worker.

(** * Properties of the producer *)

Section Producer.

Local Open Scope Qc_scope.

Lemma energy_loop_no_recent (n_samples : Z) (l : list Qc) :
  forall (i : Z) (energy_all energy_last : Qc),
    (i + Z.of_nat (List.length l) <= n_samples)%Z ->
    energy_loop n_samples 0 i l energy_all energy_last
    = (fold_left (fun acc x => acc + Qcabs x) l energy_all, energy_last).
Proof.
  induction l as [|x l IH]; intros i energy_all energy_last Hi;
    cbn [energy_loop fold_left]; [reflexivity|].
  cbn [List.length] in Hi.
  destruct (Z.leb_spec (n_samples - 0) i); [lia|].
  apply IH. lia.
Qed.

(** With a recent window of zero samples, [energy_last] stays 0 and is
    not divided. *)
Lemma energies_no_recent (data : list Qc) :
  energies data 0 = (mean_abs data, 0).
Proof.
  unfold energies. rewrite energy_loop_no_recent by lia. reflexivity.
Qed.


(** The call of line 400. *)
Lemma vad_simple_gate (chunk : list Qc) (vad_thold freq_thold : Qc) :
  vad_simple chunk WHISPER_SAMPLE_RATE 0 vad_thold freq_thold
  = match chunk with
    | [] => (false, [])
    | _ =>
        let data :=
          if Num.ltb 0 freq_thold
          then high_pass_filter chunk freq_thold (Num.Z2Qc WHISPER_SAMPLE_RATE)
          else chunk in
        (vad_decision vad_thold (mean_abs data) 0, data)
    end.
Proof.
  unfold vad_simple.
  change (Z.quot (wrap_int (WHISPER_SAMPLE_RATE * 0)) 1000) with 0%Z.
  destruct chunk as [|x chunk]; [reflexivity|].
  destruct (Z.leb_spec (Z.of_nat (List.length (x :: chunk))) 0) as [H|_];
    [cbn [List.length] in H; lia|].
  cbv zeta. now rewrite energies_no_recent.
Qed.

Lemma high_pass_filter_first (data : list Qc) (cutoff sample_rate : Qc) :
  nth 0 (high_pass_filter data cutoff sample_rate) 0 = nth 0 data 0.
Proof.
  destruct data as [|x0 xs]; [reflexivity|].
  now rewrite high_pass_filter_run.
Qed.






End Producer.

(** * Concrete runs *)

Section Runs.

Local Open Scope string_scope.

(** C3 (the code departs from the claim).  A forced-close turn, so speech
    is judged ended, whose tokens ["Hello"], [","], [" world"] end at 10,
    20 and 100: the comma is a provisional candidate ([20 < 50]) and no
    confirmed one follows.  The emitted final message carries the marker:
    the insertion after the loops (line 605) does not test
    [speech_has_end], as the two insertions inside the loop do. *)
Theorem ended_speech_still_gets_marker :
  let st := before_twentieth_check [1%Qc; 1%Qc; 1%Qc; 1%Qc] in
  let engine :=
    engine_returning 0
      [[tok "Hello" 0 10; tok "," 10 20; tok " world" 20 100]] in
  fst (check_queue st) = set_idle 0 true st
  /\ snd (fst (judge_speech_end stream_params (fst (check_queue st)))) = true
  /\ snd (run_iteration stream_params (Some engine) [] st)
     = Emitted {| text := "Hello,{SPLIT} world"; is_partial := false |}.
Proof. vm_compute. repeat split. Qed.

(** C8 (the code departs from the claim).  A forced-close turn over a
    window of four zero samples: the call of [vad_simple] over the whole
    window reports near-silence, and the final message still carries the
    text of the engine's token.  The assignment [msg.text = ""] of line
    552 comes before the scan that builds the text, when the text is
    still empty. *)
Theorem silent_forced_close_keeps_text :
  let st := before_twentieth_check (repeat 0%Qc 4) in
  let engine := engine_returning 0 [[tok "Hello" 0 100]] in
  fst (check_queue st) = set_idle 0 true st
  /\ fst (vad_simple (pcmf32 st) WHISPER_SAMPLE_RATE 0
            (vad_thold stream_params) (freq_thold stream_params)) = true
  /\ fst (fst (judge_speech_end stream_params (fst (check_queue st)))) = ""
  /\ snd (run_iteration stream_params (Some engine) [] st)
     = Emitted {| text := "Hello"; is_partial := false |}.
Proof. vm_compute. repeat split. Qed.



Lemma engine_failure_abandons_turn_witness :
  let st := before_twentieth_check [1%Qc; 1%Qc] in
  exists st',
    run_iteration stream_params (context_instance failing_turn)
      (late failing_turn) st
    = (st', EngineFailed 7)
    /\ signals st' = []
    /\ pcmf32 st' = [1%Qc; 1%Qc; 1%Qc]
    /\ s_queued_pcmf32 st' = []
    /\ run stream_params [failing_turn; failing_turn] st
       = run stream_params [failing_turn] st'.
Proof.
  intros st.
  destruct (engine_failure_abandons_turn stream_params failing_turn
              [failing_turn] st)
    as (st' & Hout & Hsig & _ & Hwin & Hq & Hloop).
  - reflexivity.
  - reflexivity.
  - right. exists (engine_returning 7 []). split; [reflexivity|].
    cbn. discriminate.
  - exists st'.
    destruct Hout as [Hout | (ret & _ & Hout)]; vm_compute in Hout;
      [discriminate Hout|].
    injection Hout as <- <-.
    repeat split; try exact Hloop; vm_compute; reflexivity.
Defined.

Lemma forced_close_after_twenty_idle_checks_witness :
  let st := fresh_state [1%Qc] in
  let turns19 := repeat idle_turn 19 in
  let st19 := run stream_params turns19 st in
  let st20 := set_queue (repeat 1%Qc 20) st19 in
  st19 = set_idle 19 false (set_queue (repeat 1%Qc 19) st)
  /\ check_queue st20 = (set_idle 0 true st20, true)
  /\ exists msg st',
       run_iteration stream_params
         (Some (engine_returning 0 [[tok "Hello" 0 100]])) [] st20
       = (st', Emitted msg)
       /\ is_partial msg = false
       /\ pcmf32 st' = []
       /\ empty_iter_count st' = 0%Z.
Proof.
  intros st turns19 st19 st20.
  destruct (forced_close_after_twenty_idle_checks stream_params
              turns19 idle_turn st)
    as (H19 & Hcheck & _ & Hemit & _).
  - reflexivity.
  - discriminate.
  - reflexivity.
  - repeat constructor.
  - vm_compute. reflexivity.
  - split; [exact H19|]. split; [exact Hcheck|].
    destruct (Hemit (engine_returning 0 [[tok "Hello" 0 100]])
                [[tok "Hello" 0 100]])
      as (msg & st' & Hrun & Hfinal & _ & Hwin & Hcount).
    + reflexivity.
    + discriminate.
    + exists msg, st'. repeat split; assumption.
Defined.

(** Line 626 over the thirty seconds one call of the engine covers: the
    index is the exact [160 * t] or one sample before it. *)
Lemma target_sample_index_within_one (t : Z) :
  (0 <= t <= 3000)%Z ->
  (160 * t - 1 <= target_sample_index t <= 160 * t)%Z.
Proof.
  intros Ht.
  assert (Hall : forallb
                   (fun t => (160 * t - 1 <=? target_sample_index t)%Z
                             && (target_sample_index t <=? 160 * t)%Z)
                   (map Z.of_nat (seq 0 (Z.to_nat 3001))) = true)
    by (vm_compute; reflexivity).
  rewrite forallb_forall in Hall.
  assert (Hin : In t (map Z.of_nat (seq 0 (Z.to_nat 3001)))).
  { apply in_map_iff. exists (Z.to_nat t). split; [lia|].
    apply in_seq. lia. }
  apply Hall in Hin. apply andb_prop in Hin. destruct Hin as [Hlow Hhigh].
  apply Z.leb_le in Hlow. apply Z.leb_le in Hhigh. lia.
Qed.

(** C6 (the code departs from the claim).  Nine and a quarter seconds of
    audio, speech not judged ended, and a comma that ends at timestamp 201
    (2.01 s) as the only split candidate: the turn emits a final message
    and keeps the window from sample 32159 on, 115682 samples, where the
    claim's index [floor (201 / 100 * 16000)] is 32160 and leaves 115681.
    In [double], [201 / 100.0] is rounded below 2.01 and the product with
    16000 stays below 32160 before it is cut to an [int]. *)
Theorem split_index_one_sample_early :
  let r :=
    run_iteration plain_params (Some comma_at_201_engine) []
      long_queue_state in
  let window := s_queued_pcmf32 long_queue_state in
  snd r = Emitted {| text := "Hello,{SPLIT} world"; is_partial := false |}
  /\ (201 * 16000 / 100 = 32160)%Z
  /\ target_sample_index 201 = 32159%Z
  /\ pcmf32 (fst r) = skipn (Z.to_nat 32159) window
  /\ Z.of_nat (List.length (pcmf32 (fst r))) = 115682%Z
  /\ Z.of_nat (List.length (skipn (Z.to_nat 32160) window)) = 115681%Z.
Proof.
  intros r window.
  assert (Hsnd : snd r
                 = Emitted {| text := "Hello,{SPLIT} world";
                              is_partial := false |})
    by (vm_compute; reflexivity).
  assert (Hwindow : pcmf32 (fst r) = skipn (Z.to_nat 32159) window).
  { destruct (finalizing_turn_window plain_params
                (Some comma_at_201_engine) [] long_queue_state (fst r)
                {| text := "Hello,{SPLIT} world"; is_partial := false |})
      as (whisper_full & sc & Hctx & Hwin & Hscan & _ & Hsplit).
    - rewrite <- Hsnd. apply surjective_pairing.
    - reflexivity.
    - injection Hctx as <-.
      assert (Hended :
               snd (fst (judge_speech_end plain_params
                           (drain_queue
                              (set_queue
                                 (s_queued_pcmf32
                                    (fst (check_queue long_queue_state)) ++ [])
                                 (fst (check_queue long_queue_state))))))
               = false)
        by (vm_compute; reflexivity).
      rewrite Hended in Hscan. specialize (fun H => Hsplit H Hended).
      unfold comma_at_201_engine, engine_returning in Hscan.
      cbn [snd] in Hscan.
      vm_compute in Hscan. injection Hscan as <-.
      cbn [delete_target_t] in Hsplit.
      destruct (Hsplit ltac:(discriminate)) as (_ & Hkeep & _).
      change (target_sample_index 201) with 32159%Z in Hkeep.
      rewrite Hwin in Hkeep.
      replace (Z.of_nat (List.length (pcmf32 long_queue_state
                                      ++ s_queued_pcmf32 long_queue_state
                                      ++ []))
               <=? 32159)%Z with false in Hkeep
        by (vm_compute; reflexivity).
      rewrite Hkeep by discriminate.
      subst window. cbn [pcmf32 long_queue_state app].
      now rewrite app_nil_r. }
  split; [exact Hsnd|].
  split; [reflexivity|].
  split; [vm_compute; reflexivity|].
  split; [exact Hwindow|].
  rewrite Hwindow. subst window. cbn [s_queued_pcmf32 long_queue_state].
  rewrite !length_skipn, repeat_length. split; reflexivity.
Qed.

End Runs.

(** * Further properties of the energy test *)

Section VadBuffer.

Local Open Scope Qc_scope.

(** X3.  What [vad_simple] does to the buffer, for a recent window that
    is not negative (a negative [int] product would let an empty buffer
    reach the filter): if the window is at least as long as the buffer (an
    empty buffer included) it returns [false] and the buffer untouched;
    unless [freq_thold > 0] it never changes the buffer; and it never
    changes the number of samples nor the first sample. *)
Theorem vad_simple_buffer :
  forall (pcmf32 : list Qc) (sample_rate last_ms : Z)
         (vad_thold freq_thold : Qc),
    let n_samples_last := Z.quot (wrap_int (sample_rate * last_ms)) 1000 in
    let r := vad_simple pcmf32 sample_rate last_ms vad_thold freq_thold in
    (0 <= n_samples_last)%Z ->
    ((Z.of_nat (List.length pcmf32) <= n_samples_last)%Z ->
     r = (false, pcmf32))
    /\ (~ 0 < freq_thold -> snd r = pcmf32)
    /\ List.length (snd r) = List.length pcmf32
    /\ nth 0 (snd r) 0 = nth 0 pcmf32 0.
Proof.
  intros pcmf32 sample_rate last_ms vad_thold freq_thold n_samples_last r _.
  split; [|split; [|split]].
  - intros Hshort. subst r. unfold vad_simple. fold n_samples_last.
    destruct (Z.leb_spec (Z.of_nat (List.length pcmf32)) n_samples_last);
      [reflexivity | lia].
  - intros Hoff. subst r. unfold vad_simple.
    destruct (_ <=? _)%Z; [reflexivity|].
    destruct (Num.ltb 0 freq_thold) eqn:E.
    + apply NumFacts.ltb_lt in E. contradiction.
    + now destruct (energies _ _).
  - apply vad_simple_length.
  - subst r. unfold vad_simple.
    destruct (_ <=? _)%Z; [reflexivity|].
    destruct (Num.ltb 0 freq_thold);
      destruct (energies _ _); cbn [snd];
      [apply high_pass_filter_first | reflexivity].
Qed.

Lemma vad_simple_buffer_witness :
  vad_simple [1; 1] 16000 500 (Q2Qc (6 # 10)) (Q2Qc 100) = (false, [1; 1])
  /\ snd (vad_simple [1; 1] 16000 0 (Q2Qc (6 # 10)) 0) = [1; 1].
Proof.
  split.
  - refine (proj1 (vad_simple_buffer [1; 1] 16000%Z 500%Z
                     (Q2Qc (6 # 10)) (Q2Qc 100) _) _);
      vm_compute; discriminate.
  - refine (proj1 (proj2 (vad_simple_buffer [1; 1] 16000%Z 0%Z
                            (Q2Qc (6 # 10)) 0 _)) _);
      vm_compute; discriminate.
Defined.

End VadBuffer.

(** * Further properties of the segment-splitting scan *)

Section ScanShape.

Local Open Scope string_scope.

Variable half_t : Z.
Variable speech_has_end : bool.

Lemma token_texts_snoc (tks : list token) (tk : token) :
  token_texts (tks ++ [tk]) = token_texts tks ++ tok_text tk.
Proof. rewrite token_texts_app. cbn. now rewrite append_nil_r. Qed.

Lemma marker_shape_snoc (seen : list token) (txt : string) (tk : token) :
  marker_shape seen txt -> marker_shape (seen ++ [tk]) (txt ++ tok_text tk).
Proof.
  intros [-> | (pre & c & post & -> & Hc & ->)].
  - left. now rewrite token_texts_snoc.
  - right. exists pre, c, (post ++ [tk])%list. split; [|split].
    + now rewrite <- app_assoc.
    + exact Hc.
    + now rewrite (token_texts_snoc post tk), !append_assoc.
Qed.

Lemma scan_inv_step (seen : list token) (st : scan_state) (tk : token) :
  scan_inv seen st ->
  scan_inv (seen ++ [tk]) (scan_token half_t speech_has_end st tk).
Proof.
  intros [(Hfind & Htext & Hprov) | (Hfind & Hshape & c & Hin & Hc & Hdt)];
    unfold scan_token; rewrite Hfind; cbn [negb].
  - destruct (is_split_candidate (tok_text tk)) eqn:Hcand.
    + destruct (tok_t1 tk <? half_t)%Z.
      * left. cbn. rewrite Htext, token_texts_snoc.
        split; [reflexivity|]. split; [reflexivity|].
        intros _. exists seen, tk, []. repeat split; try assumption.
        now rewrite token_texts_snoc, length_append.
      * destruct (Z.eqb_spec (delete_target_t st) 0) as [Hzero | Hnz].
        -- right. cbn. split; [reflexivity|]. split.
           ++ rewrite Htext, <- token_texts_snoc.
              destruct speech_has_end; cbn [negb].
              ** now left.
              ** right. exists seen, tk, []. repeat split; assumption.
           ++ exists tk. split; [apply in_or_app; right; now left|].
              now split.
        -- right. cbn. split; [reflexivity|].
           destruct (Hprov Hnz) as (pre & p & mid & -> & Hp & Hdt & Hti).
           split.
           ++ destruct speech_has_end; cbn [negb].
              ** left. now rewrite Htext, token_texts_snoc.
              ** right. exists pre, p, (mid ++ [tk])%list.
                 split; [now rewrite <- app_assoc|]. split; [exact Hp|].
                 rewrite Htext, Hti.
                 change (pre ++ p :: mid)%list with (pre ++ [p] ++ mid)%list.
                 rewrite app_assoc, (token_texts_app (pre ++ [p]) mid),
                   insert_after_prefix.
                 now rewrite (token_texts_snoc mid tk), !append_assoc.
           ++ exists p. split; [|now split].
              apply in_or_app. left. apply in_or_app. right. now left.
    + left. cbn. rewrite Htext, token_texts_snoc.
      split; [reflexivity|]. split; [reflexivity|].
      intros Hnz. destruct (Hprov Hnz) as (pre & p & mid & -> & Hp & Hdt & Hti).
      exists pre, p, (mid ++ [tk])%list. repeat split; try assumption.
      now rewrite <- app_assoc.
  - right. cbn. split; [reflexivity|]. split.
    + now apply marker_shape_snoc.
    + exists c. split; [apply in_or_app; now left | now split].
Qed.

Lemma scan_inv_fold (tks : list token) :
  forall seen st,
    scan_inv seen st ->
    scan_inv (seen ++ tks)
      (fold_left (scan_token half_t speech_has_end) tks st).
Proof.
  induction tks as [|tk tks IH]; intros seen st Hinv; cbn [fold_left].
  - now rewrite app_nil_r.
  - change (tk :: tks) with ([tk] ++ tks)%list. rewrite app_assoc.
    apply IH. now apply scan_inv_step.
Qed.

(** The scan and the insertion after it: the text has the token texts in
    order, with at most one marker, placed right after a split candidate;
    the recorded timestamp is 0 or the [t1] of a split candidate. *)
Lemma scan_finish_shape (tks : list token) :
  let st := scan_finish
              (fold_left (scan_token half_t speech_has_end) tks
                 (scan_init "")) in
  marker_shape tks (msg_text st)
  /\ (delete_target_t st = 0%Z
      \/ exists c, In c tks /\ is_split_candidate (tok_text c) = true
                   /\ delete_target_t st = tok_t1 c).
Proof.
  assert (Hinit : scan_inv [] (scan_init ""))
    by (left; cbn; repeat split; intros H; now contradiction H).
  pose proof (scan_inv_fold tks [] _ Hinit) as Hinv. cbn [app] in Hinv.
  cbv zeta. unfold scan_finish.
  set (s := fold_left (scan_token half_t speech_has_end) tks (scan_init ""))
    in *.
  destruct Hinv as [(Hfind & Htext & Hprov) | (Hfind & Hshape & Hdt)];
    rewrite Hfind; cbn [negb].
  - destruct (Z.eqb_spec (delete_target_t s) 0) as [Hzero | Hnz]; cbn [negb andb].
    + split; [now left | now left].
    + destruct (Hprov Hnz) as (pre & p & mid & Hseen & Hp & Hdt & Hti).
      cbn. split.
      * right. exists pre, p, mid. repeat split; try assumption.
        rewrite Htext, Hti, Hseen.
        change (pre ++ p :: mid)%list with (pre ++ [p] ++ mid)%list.
        now rewrite app_assoc, (token_texts_app (pre ++ [p]) mid),
          insert_after_prefix.
      * right. exists p. repeat split; try assumption.
        rewrite Hseen. apply in_or_app. right. now left.
  - rewrite andb_false_r. split; [exact Hshape | right; exact Hdt].
Qed.

End ScanShape.

Section ScanCases.

Local Open Scope string_scope.

Variable half_t : Z.

Lemma scan_found_stays (speech_has_end : bool) (tks : list token) :
  forall st, find_delete_target_t st = true ->
    find_delete_target_t
      (fold_left (scan_token half_t speech_has_end) tks st) = true.
Proof.
  intros st Hfound. now rewrite scan_after_found.
Qed.

(** A split candidate at or above [half_t] ends the search. *)
Lemma scan_finds_confirmed (speech_has_end : bool) (tks : list token) :
  forall st,
    (exists c, In c tks /\ is_split_candidate (tok_text c) = true
               /\ (half_t <= tok_t1 c)%Z) ->
    find_delete_target_t
      (fold_left (scan_token half_t speech_has_end) tks st) = true.
Proof.
  induction tks as [|tk tks IH]; intros st (c & Hin & Hc & Hge);
    [contradiction|].
  cbn [fold_left].
  destruct (find_delete_target_t st) eqn:Hfind.
  - apply scan_found_stays. unfold scan_token. now rewrite Hfind.
  - destruct Hin as [<- | Hin].
    + apply scan_found_stays. unfold scan_token. rewrite Hfind, Hc. cbn [negb].
      destruct (Z.ltb_spec (tok_t1 tk) half_t); [lia|].
      now destruct (delete_target_t st =? 0)%Z.
    + apply IH. now exists c.
Qed.

(** With speech judged ended the loop inserts nothing. *)
Lemma scan_ended_text (tks : list token) :
  forall st,
    msg_text (fold_left (scan_token half_t true) tks st)
    = msg_text st ++ token_texts tks.
Proof.
  induction tks as [|tk tks IH]; intros st; cbn [fold_left token_texts fold_right].
  - now rewrite append_nil_r.
  - rewrite IH.
    assert (Hstep : msg_text (scan_token half_t true st tk)
                    = msg_text st ++ tok_text tk).
    { unfold scan_token.
      destruct (find_delete_target_t st), (is_split_candidate (tok_text tk)),
        (tok_t1 tk <? half_t)%Z, (delete_target_t st =? 0)%Z; reflexivity. }
    rewrite Hstep. apply append_assoc.
Qed.

(** Provisional candidates alone leave the text plain and the search
    open. *)
Lemma scan_provisional_prefix (speech_has_end : bool) (pre : list token) :
  forall st,
    find_delete_target_t st = false ->
    (forall c, In c pre -> is_split_candidate (tok_text c) = true ->
               (tok_t1 c < half_t)%Z) ->
    let st' := fold_left (scan_token half_t speech_has_end) pre st in
    find_delete_target_t st' = false
    /\ msg_text st' = msg_text st ++ token_texts pre.
Proof.
  induction pre as [|tk pre IH]; intros st Hfind Hpre;
    cbn [fold_left token_texts fold_right].
  - split; [exact Hfind | now rewrite append_nil_r].
  - assert (Hstep : find_delete_target_t
                      (scan_token half_t speech_has_end st tk) = false
                    /\ msg_text (scan_token half_t speech_has_end st tk)
                       = msg_text st ++ tok_text tk).
    { unfold scan_token. rewrite Hfind. cbn [negb].
      destruct (is_split_candidate (tok_text tk)) eqn:Hc.
      - destruct (Z.ltb_spec (tok_t1 tk) half_t) as [_ | Hge].
        + now split.
        + specialize (Hpre tk (or_introl eq_refl) Hc). lia.
      - now split. }
    destruct Hstep as [Hfind' Htext'].
    destruct (IH (scan_token half_t speech_has_end st tk) Hfind')
      as [Hf Ht]; [intros c Hin; apply Hpre; now right|].
    split; [exact Hf|]. cbv zeta in Ht. rewrite Ht, Htext'.
    apply append_assoc.
Qed.

(** From a recorded provisional split point, with speech not judged ended
    and only candidates at or above [half_t] to come, the marker is put
    at the recorded offset. *)
Lemma scan_rest_after_provisional (rest : list token) (st : scan_state) :
  find_delete_target_t st = false ->
  delete_target_t st <> 0%Z ->
  target_index st = String.length (msg_text st) ->
  (forall c, In c rest -> is_split_candidate (tok_text c) = true ->
             (half_t <= tok_t1 c)%Z) ->
  let st' := scan_finish (fold_left (scan_token half_t false) rest st) in
  msg_text st' = msg_text st ++ SPLIT ++ token_texts rest
  /\ delete_target_t st' = delete_target_t st.
Proof.
  intros Hfind Hnz Hti Hrest.
  assert (Hz : (delete_target_t st =? 0)%Z = false) by now apply Z.eqb_neq.
  destruct (first_candidate rest) as [Hno | (mid & c & post & -> & Hmid & Hc)].
  - rewrite (scan_no_candidate _ _ rest) by exact Hno.
    cbv zeta. unfold scan_finish, add_text. cbn. rewrite Hz, Hfind. cbn.
    split; [|reflexivity]. rewrite Hti. apply insert_after_prefix.
  - assert (Hge : (half_t <= tok_t1 c)%Z)
      by (apply Hrest; [apply in_or_app; right; now left | exact Hc]).
    assert (Hs : fold_left (scan_token half_t false) (mid ++ c :: post) st
                 = add_text
                     {| msg_text :=
                          insert (target_index st) SPLIT
                            (msg_text st ++ token_texts mid) ++ tok_text c;
                        delete_target_t := delete_target_t st;
                        find_delete_target_t := true;
                        target_index := target_index st |}
                     (token_texts post)).
    { rewrite fold_left_app, (scan_no_candidate _ _ mid) by exact Hmid.
      cbn [fold_left]. unfold scan_token at 2.
      cbn [add_text find_delete_target_t negb msg_text delete_target_t
           target_index].
      rewrite Hfind, Hc. cbn [negb].
      destruct (Z.ltb_spec (tok_t1 c) half_t) as [|_]; [lia|].
      rewrite Hz. now rewrite scan_after_found. }
    cbv zeta. rewrite Hs. unfold scan_finish, add_text. cbn.
    rewrite andb_false_r. cbn.
    split; [|reflexivity].
    rewrite Hti, insert_after_prefix, token_texts_app. cbn.
    now rewrite !append_assoc.
Qed.

End ScanCases.

Section ScanTheorems.

Local Open Scope string_scope.

(** X4.  Whatever the tokens and whether or not speech is judged ended,
    the text the scan builds is the token texts in scan order, either as
    they are or with exactly one [{SPLIT}] marker inserted, and a marker
    always comes right after the text of a split candidate.  The recorded
    split timestamp is 0 or the [t1] of a split candidate. *)
Theorem split_scan_marker_shape :
  forall (speech_has_end : bool) (segs : list segment) (st : scan_state),
    split_scan speech_has_end "" segs = Some st ->
    (msg_text st = token_texts (List.concat segs)
     \/ exists pre c post,
         List.concat segs = (pre ++ c :: post)%list
         /\ is_split_candidate (tok_text c) = true
         /\ msg_text st
            = token_texts (pre ++ [c]) ++ SPLIT ++ token_texts post)
    /\ (delete_target_t st = 0%Z
        \/ exists c, In c (List.concat segs)
                     /\ is_split_candidate (tok_text c) = true
                     /\ delete_target_t st = tok_t1 c).
Proof.
  intros speech_has_end segs st Hscan. unfold split_scan in Hscan.
  destruct (half_t_of segs) as [half_t|]; [|discriminate Hscan].
  injection Hscan as <-.
  exact (scan_finish_shape half_t speech_has_end (List.concat segs)).
Qed.

Lemma split_scan_marker_shape_witness :
  exists st,
    split_scan false ""
      [[tok "Hello" 0 30; tok "," 30 40]; [tok " world" 40 100]] = Some st
    /\ (msg_text st = "Hello, world"
        \/ exists pre c post,
            [tok "Hello" 0 30; tok "," 30 40; tok " world" 40 100]
            = (pre ++ c :: post)%list
            /\ is_split_candidate (tok_text c) = true
            /\ msg_text st
               = token_texts (pre ++ [c]) ++ SPLIT ++ token_texts post).
Proof.
  eexists. split; [reflexivity|].
  exact (proj1 (split_scan_marker_shape false
                  [[tok "Hello" 0 30; tok "," 30 40]; [tok " world" 40 100]]
                  _ eq_refl)).
Defined.

(** X5.  With speech judged ended, as soon as some scanned token is a
    split candidate with [t1 >= half_t] the text is the plain
    concatenation of the token texts: no marker. *)
Theorem ended_speech_with_confirmed_candidate_has_no_marker :
  forall (segs : list segment) (half_t : Z) (st : scan_state),
    split_scan true "" segs = Some st ->
    half_t_of segs = Some half_t ->
    (exists c, In c (List.concat segs)
               /\ is_split_candidate (tok_text c) = true
               /\ (half_t <= tok_t1 c)%Z) ->
    msg_text st = token_texts (List.concat segs).
Proof.
  intros segs half_t st Hscan Hhalf Hconf. unfold split_scan in Hscan.
  rewrite Hhalf in Hscan. injection Hscan as <-.
  unfold scan_tokens, scan_finish.
  rewrite (scan_finds_confirmed half_t true _ _ Hconf), andb_false_r.
  now rewrite scan_ended_text.
Qed.

Lemma ended_speech_with_confirmed_candidate_has_no_marker_witness :
  option_map msg_text
    (split_scan true ""
       [[tok "Hello" 0 30; tok "," 30 40; tok " world" 40 90; tok "." 90 100]])
  = Some "Hello, world.".
Proof.
  set (segs := [[tok "Hello" 0 30; tok "," 30 40; tok " world" 40 90;
                 tok "." 90 100]]).
  destruct (split_scan true "" segs) as [st|] eqn:E; [|discriminate E].
  cbn [option_map]. f_equal.
  apply (ended_speech_with_confirmed_candidate_has_no_marker segs 50%Z st E).
  - reflexivity.
  - exists (tok "." 90 100). split; [cbn; tauto|]. split; [reflexivity | cbn; lia].
Defined.

(** X6.  The last provisional candidate wins.  Let the scanned tokens be
    [pre], then a split candidate [p] with [t1 < half_t] and [t1 <> 0],
    then [rest], where every split candidate of [pre] has [t1 < half_t]
    and every split candidate of [rest] has [t1 >= half_t].  With speech
    not judged ended, the one marker comes right after the text of [p],
    whatever earlier provisional candidates [pre] holds, and the recorded
    timestamp is the [t1] of [p]. *)
Theorem last_provisional_candidate_takes_marker :
  forall (segs : list segment) (pre rest : list token) (p : token)
         (half_t : Z),
    List.concat segs = (pre ++ p :: rest)%list ->
    half_t_of segs = Some half_t ->
    (forall c, In c pre -> is_split_candidate (tok_text c) = true ->
               (tok_t1 c < half_t)%Z) ->
    is_split_candidate (tok_text p) = true ->
    (tok_t1 p < half_t)%Z ->
    tok_t1 p <> 0%Z ->
    (forall c, In c rest -> is_split_candidate (tok_text c) = true ->
               (half_t <= tok_t1 c)%Z) ->
    exists st,
      split_scan false "" segs = Some st
      /\ msg_text st
         = token_texts pre ++ tok_text p ++ SPLIT ++ token_texts rest
      /\ delete_target_t st = tok_t1 p.
Proof.
  intros segs pre rest p half_t Hconcat Hhalf Hpre Hp Hlt Hnz Hrest.
  unfold split_scan, scan_tokens. rewrite Hhalf, Hconcat. eexists.
  split; [reflexivity|].
  rewrite fold_left_app. cbn [fold_left].
  destruct (scan_provisional_prefix half_t false pre (scan_init "")
              eq_refl Hpre) as [Hfind Htext].
  set (st1 := fold_left (scan_token half_t false) pre (scan_init "")) in *.
  cbn [scan_init msg_text] in Htext. cbn [append] in Htext.
  set (st2 := scan_token half_t false st1 p).
  assert (H2 : find_delete_target_t st2 = false
               /\ delete_target_t st2 = tok_t1 p
               /\ msg_text st2 = token_texts pre ++ tok_text p
               /\ target_index st2 = String.length (msg_text st2)).
  { subst st2. unfold scan_token. rewrite Hfind, Hp. cbn [negb].
    destruct (Z.ltb_spec (tok_t1 p) half_t) as [_|]; [|lia].
    cbn. rewrite Htext. repeat split. now rewrite length_append. }
  destruct H2 as (Hfind2 & Hdt2 & Htext2 & Hti2).
  destruct (scan_rest_after_provisional half_t rest st2 Hfind2)
    as [Htext3 Hdt3]; try assumption; [now rewrite Hdt2|].
  cbv zeta in Htext3, Hdt3. rewrite Htext3, Hdt3, Htext2, Hdt2.
  split; [now rewrite append_assoc | reflexivity].
Qed.

Lemma last_provisional_candidate_takes_marker_witness :
  exists st,
    split_scan false ""
      [[tok "One" 0 10; tok "," 10 20; tok " two" 20 30; tok "," 30 40];
       [tok " three" 40 90; tok "." 90 100]]
    = Some st
    /\ msg_text st = "One, two,{SPLIT} three."
    /\ delete_target_t st = 40%Z.
Proof.
  apply (last_provisional_candidate_takes_marker
           [[tok "One" 0 10; tok "," 10 20; tok " two" 20 30; tok "," 30 40];
            [tok " three" 40 90; tok "." 90 100]]
           [tok "One" 0 10; tok "," 10 20; tok " two" 20 30]
           [tok " three" 40 90; tok "." 90 100]
           (tok "," 30 40) 50%Z).
  - reflexivity.
  - reflexivity.
  - intros c [<-|[<-|[<-|[]]]] Hc; first [discriminate Hc | cbn; lia].
  - reflexivity.
  - reflexivity.
  - discriminate.
  - intros c [<-|[<-|[]]] Hc; [discriminate Hc | cbn; lia].
Defined.

(** X7.  When the first split candidate the scan meets already has
    [t1 >= half_t], it is the confirmed split point: its [t1] is recorded
    and, if speech is not judged ended, the marker follows its text at
    once; if speech is judged ended the text stays plain. *)
Theorem first_candidate_confirmed :
  forall (speech_has_end : bool) (segs : list segment)
         (pre post : list token) (c : token) (half_t : Z),
    List.concat segs = (pre ++ c :: post)%list ->
    half_t_of segs = Some half_t ->
    no_candidate pre ->
    is_split_candidate (tok_text c) = true ->
    (half_t <= tok_t1 c)%Z ->
    exists st,
      split_scan speech_has_end "" segs = Some st
      /\ msg_text st
         = token_texts pre ++ tok_text c
           ++ (if speech_has_end then "" else SPLIT) ++ token_texts post
      /\ delete_target_t st = tok_t1 c.
Proof.
  intros speech_has_end segs pre post c half_t Hconcat Hhalf Hpre Hc Hge.
  unfold split_scan, scan_tokens. rewrite Hhalf, Hconcat. eexists.
  split; [reflexivity|].
  rewrite fold_left_app, (scan_no_candidate _ _ pre) by exact Hpre.
  cbn [fold_left].
  set (st2 := scan_token half_t speech_has_end
                (add_text (scan_init "") (token_texts pre)) c).
  assert (H2 : st2 = {| msg_text :=
                          (token_texts pre ++ tok_text c)
                          ++ (if speech_has_end then "" else SPLIT);
                        delete_target_t := tok_t1 c;
                        find_delete_target_t := true;
                        target_index := 0 |}).
  { subst st2. unfold scan_token. cbn. rewrite Hc.
    destruct (Z.ltb_spec (tok_t1 c) half_t) as [|_]; [lia|].
    destruct speech_has_end; cbn; [now rewrite append_nil_r | reflexivity]. }
  rewrite H2, scan_after_found by reflexivity.
  unfold scan_finish, add_text. cbn. rewrite andb_false_r. cbn.
  split; [now rewrite !append_assoc | reflexivity].
Qed.

Lemma first_candidate_confirmed_witness :
  exists st,
    split_scan false "" [[tok "Hello world" 0 90; tok "." 90 100; tok " Bye" 100 120]]
    = Some st
    /\ msg_text st = "Hello world.{SPLIT} Bye"
    /\ delete_target_t st = 100%Z.
Proof.
  apply (first_candidate_confirmed false
           [[tok "Hello world" 0 90; tok "." 90 100; tok " Bye" 100 120]]
           [tok "Hello world" 0 90] [tok " Bye" 100 120]
           (tok "." 90 100) 60%Z).
  - reflexivity.
  - reflexivity.
  - intros tk [<-|[]]. reflexivity.
  - reflexivity.
  - cbn. lia.
Defined.

End ScanTheorems.

(** * Further properties of the worker loop *)

Section WorkerFrames.

Variable p : params.

Lemma retained_window_suffix (t : Z) (ended : bool) (window last : list Qc) :
  retained_window t ended window = Some last ->
  exists n, last = skipn n window.
Proof.
  unfold retained_window. intros H.
  destruct ((t =? 0)%Z || ended).
  - injection H as <-. exists (List.length window). now rewrite skipn_all.
  - destruct (_ || _); [discriminate H|].
    destruct (_ <=? _)%Z; injection H as <-.
    + exists (List.length window). now rewrite skipn_all.
    + now eexists.
Qed.

(** What [transcribe] leaves alone, by outcome. *)
Lemma transcribe_frame (context_instance : option whisper_context)
    (st : state) :
  let r := transcribe p context_instance st in
  empty_iter_count (fst r) = empty_iter_count st
  /\ need_close_segment (fst r) = need_close_segment st
  /\ s_queued_pcmf32 (fst r) = s_queued_pcmf32 st
  /\ match snd r with
     | Idle => False
     | Emitted msg =>
         signals (fst r) = signals st ++ [s_transcribed_msgs st ++ [msg]]
         /\ s_transcribed_msgs (fst r) = []
         /\ exists n, pcmf32 (fst r) = skipn n (pcmf32 st)
     | _ => fst r = st
     end.
Proof.
  unfold transcribe.
  destruct context_instance as [whisper_full|]; [|now cbn].
  destruct (whisper_full (pcmf32 st)) as [ret segs].
  destruct (negb (ret =? 0)%Z); [now cbn|].
  pose proof (judge_speech_end_not_ended p st) as Hwin.
  destruct (judge_speech_end p st) as [[text0 speech_has_end] window].
  cbn [fst snd] in Hwin.
  destruct (split_scan speech_has_end text0 segs) as [sc|]; [|now cbn].
  destruct ((n_samples_iter_threshold * 66
             <? 100 * Z.of_nat (List.length window))%Z || speech_has_end)
    eqn:Hfinal.
  - destruct (retained_window (delete_target_t sc) speech_has_end window)
      as [last|] eqn:Hkeep; [|now cbn].
    cbn. repeat split.
    destruct speech_has_end.
    + unfold retained_window in Hkeep. rewrite orb_true_r in Hkeep.
      injection Hkeep as <-. exists (List.length (pcmf32 st)).
      now rewrite skipn_all.
    + rewrite Hwin in Hkeep by reflexivity.
      now apply retained_window_suffix in Hkeep.
  - apply orb_false_elim in Hfinal. destruct Hfinal as [_ ->].
    cbn. repeat split. exists 0%nat. now rewrite Hwin.
Qed.

(** X8.  What one turn of the loop does to the shared state, by outcome.
    An idle turn leaves the window, the queue, the result sink and the
    emitted signals as they were.  A turn abandoned for the engine empties
    the queue into the window and emits nothing.  A turn that emits a
    message empties the queue, appends exactly one signal, which carries
    what the sink held followed by the new message, and leaves the sink
    empty. *)
Theorem run_iteration_frame :
  forall (context_instance : option whisper_context) (late : list Qc)
         (st : state),
    let r := run_iteration p context_instance late st in
    match snd r with
    | Idle =>
        pcmf32 (fst r) = pcmf32 st
        /\ s_queued_pcmf32 (fst r) = s_queued_pcmf32 st
        /\ s_transcribed_msgs (fst r) = s_transcribed_msgs st
        /\ signals (fst r) = signals st
    | EngineMissing | EngineFailed _ =>
        pcmf32 (fst r) = pcmf32 st ++ s_queued_pcmf32 st ++ late
        /\ s_queued_pcmf32 (fst r) = []
        /\ s_transcribed_msgs (fst r) = s_transcribed_msgs st
        /\ signals (fst r) = signals st
    | Emitted msg =>
        s_queued_pcmf32 (fst r) = []
        /\ s_transcribed_msgs (fst r) = []
        /\ signals (fst r) = signals st ++ [s_transcribed_msgs st ++ [msg]]
    | Undefined => True
    end.
Proof.
  intros context_instance late st r. subst r. unfold run_iteration.
  destruct (check_queue_frame st) as (Hq & Hm & Hs & Hw).
  destruct (check_queue st) as [st1 go]. cbn [fst] in *.
  destruct go; [|now cbn].
  set (st2 := drain_queue (set_queue (s_queued_pcmf32 st1 ++ late) st1)).
  assert (H2 : pcmf32 st2 = pcmf32 st ++ s_queued_pcmf32 st ++ late
               /\ s_queued_pcmf32 st2 = []
               /\ s_transcribed_msgs st2 = s_transcribed_msgs st
               /\ signals st2 = signals st)
    by (subst st2; cbn; now rewrite Hw, Hq, Hm, Hs).
  destruct H2 as (Hw2 & Hq2 & Hm2 & Hs2).
  destruct (transcribe_frame context_instance st2) as (_ & _ & Hq3 & Hout).
  destruct (snd (transcribe p context_instance st2)) as [| | |msg|].
  - contradiction.
  - rewrite Hout. now rewrite Hw2.
  - rewrite Hout. now rewrite Hw2.
  - destruct Hout as (Hs3 & Hm3 & _).
    now rewrite Hq3, Hq2, Hm3, Hs3, Hs2, Hm2.
  - exact I.
Qed.

Lemma check_queue_counter (st : state) :
  (0 <= empty_iter_count st < 20)%Z ->
  (0 <= empty_iter_count (fst (check_queue st)) < 20)%Z.
Proof.
  intros Hc. unfold check_queue.
  cbn [set_idle s_queued_pcmf32 pcmf32 empty_iter_count].
  destruct (Z.of_nat (List.length (s_queued_pcmf32 st)) <? WHISPER_SAMPLE_RATE)%Z;
    [|exact Hc].
  destruct (_ && _); cbn; [lia|].
  apply Z.rem_bound_pos; lia.
Qed.

Lemma run_iteration_counter (context_instance : option whisper_context)
    (late : list Qc) (st : state) :
  (0 <= empty_iter_count st < 20)%Z ->
  (0 <= empty_iter_count
          (fst (run_iteration p context_instance late st)) < 20)%Z.
Proof.
  intros Hc. unfold run_iteration.
  pose proof (check_queue_counter st Hc) as H1.
  destruct (check_queue st) as [st1 go]. cbn [fst] in H1.
  destruct go; [|exact H1].
  destruct (transcribe_frame context_instance
              (drain_queue (set_queue (s_queued_pcmf32 st1 ++ late) st1)))
    as (Hcount & _).
  rewrite Hcount. exact H1.
Qed.

(** X9.  The idle counter stays within 0..19 over any run of the loop,
    whatever the producer, the engine and the stop flag do. *)
Theorem run_keeps_idle_counter_in_range :
  forall (turns : list turn) (st : state),
    (0 <= empty_iter_count st < 20)%Z ->
    (0 <= empty_iter_count (run p turns st) < 20)%Z.
Proof.
  induction turns as [|t turns IH]; intros st Hc; cbn [run]; [exact Hc|].
  destruct (is_running t); [|exact Hc].
  apply IH. now apply run_iteration_counter.
Qed.

Lemma run_iteration_signals (context_instance : option whisper_context)
    (late : list Qc) (st : state) :
  exists new,
    signals (fst (run_iteration p context_instance late st))
    = signals st ++ new
    /\ (List.length new <= 1)%nat.
Proof.
  unfold run_iteration.
  destruct (check_queue_frame st) as (_ & _ & Hs & _).
  destruct (check_queue st) as [st1 go]. cbn [fst] in *.
  destruct go.
  - set (st2 := drain_queue (set_queue (s_queued_pcmf32 st1 ++ late) st1)).
    assert (Hs2 : signals st2 = signals st) by (subst st2; cbn; exact Hs).
    assert (Hm2 : s_transcribed_msgs st2 = s_transcribed_msgs st1)
      by (subst st2; reflexivity).
    destruct (transcribe_frame context_instance st2) as (_ & _ & _ & Hout).
    destruct (snd (transcribe p context_instance st2)) as [| | |msg|];
      [contradiction | | | |];
      try (rewrite Hout, Hs2; exists []; rewrite app_nil_r; split;
           [reflexivity | cbn; lia]).
    destruct Hout as (Hs3 & _). rewrite Hs3, Hs2.
    eexists. split; [reflexivity | cbn; lia].
  - cbn [fst]. exists []. rewrite app_nil_r, Hs. split; [reflexivity | cbn; lia].
Qed.

(** X10.  Signals are only ever appended: the signals emitted before a run
    of the loop are a prefix of those emitted after it, and the run adds at
    most one signal per turn. *)
Theorem run_only_appends_signals :
  forall (turns : list turn) (st : state),
    exists new,
      signals (run p turns st) = signals st ++ new
      /\ (List.length new <= List.length turns)%nat.
Proof.
  induction turns as [|t turns IH]; intros st; cbn [run].
  - exists []. rewrite app_nil_r. split; [reflexivity | cbn; lia].
  - destruct (is_running t).
    + destruct (run_iteration_signals (context_instance t) (late t)
                  (set_queue (s_queued_pcmf32 st ++ arrived t) st))
        as (new1 & H1 & Hlen1).
      destruct (IH (fst (run_iteration p (context_instance t) (late t)
                           (set_queue (s_queued_pcmf32 st ++ arrived t) st))))
        as (new2 & H2 & Hlen2).
      exists (new1 ++ new2). rewrite H2, H1. cbn [signals set_queue].
      rewrite <- app_assoc, length_app. split; [reflexivity | cbn; lia].
    + exists []. rewrite app_nil_r. split; [reflexivity | cbn; lia].
Qed.

End WorkerFrames.

Section WorkerWindow.

Variable p : params.

(** A turn that emits went through [transcribe] on the drained state. *)
Lemma run_iteration_emitted_inv (context_instance : option whisper_context)
    (late : list Qc) (st0 st' : state) (msg : transcribed_msg) :
  run_iteration p context_instance late st0 = (st', Emitted msg) ->
  exists (whisper_full : whisper_context) (st : state),
    context_instance = Some whisper_full
    /\ pcmf32 st = pcmf32 st0 ++ s_queued_pcmf32 st0 ++ late
    /\ transcribe p (Some whisper_full) st = (st', Emitted msg).
Proof.
  unfold run_iteration. intros Hrun.
  destruct (check_queue_frame st0) as (Hq & _ & _ & Hw).
  destruct (check_queue st0) as [st1 go]. cbn [fst] in *.
  destruct go; [|discriminate Hrun].
  destruct context_instance as [whisper_full|]; [|discriminate Hrun].
  exists whisper_full,
    (drain_queue (set_queue (s_queued_pcmf32 st1 ++ late) st1)).
  split; [reflexivity|]. split; [cbn; now rewrite Hw, Hq | exact Hrun].
Qed.

(** X11.  A turn that emits a partial message keeps the whole window: the
    old window followed by everything drained from the queue, in order.
    That happens only while the window holds at most 147840 samples (66%
    of the iteration threshold) and no forced close is pending; above
    that size the message is final. *)
Theorem partial_message_keeps_window :
  forall (context_instance : option whisper_context) (late : list Qc)
         (st0 st' : state) (msg : transcribed_msg),
    run_iteration p context_instance late st0 = (st', Emitted msg) ->
    let window := pcmf32 st0 ++ s_queued_pcmf32 st0 ++ late in
    (is_partial msg = true ->
     pcmf32 st' = window
     /\ (Z.of_nat (List.length window) <= 147840)%Z
     /\ need_close_segment st' = false)
    /\ ((147840 < Z.of_nat (List.length window))%Z -> is_partial msg = false).
Proof.
  intros context_instance late st0 st' msg Hrun window.
  apply run_iteration_emitted_inv in Hrun.
  destruct Hrun as (whisper_full & st & _ & Hwin & Htr). fold window in Hwin.
  pose proof (transcribe_frame p (Some whisper_full) st) as (_ & Hclose & _).
  rewrite Htr in Hclose. cbn [fst] in Hclose.
  apply transcribe_emitted in Htr.
  destruct Htr as (sc & _ & _ & _ & Hpartial & _ & _ & Hkeep).
  rewrite judge_speech_end_length, Hwin in Hpartial.
  change (n_samples_iter_threshold * 66)%Z with 14784000%Z in Hpartial.
  split.
  - intros Htrue. rewrite Htrue in Hpartial.
    symmetry in Hpartial. apply negb_true_iff, orb_false_elim in Hpartial.
    destruct Hpartial as [Hsize Hended].
    apply Z.ltb_ge in Hsize.
    rewrite (Hkeep Htrue), (judge_speech_end_not_ended p st Hended), Hwin.
    split; [reflexivity|]. split; [lia|].
    rewrite Hclose. unfold judge_speech_end in Hended.
    destruct (need_close_segment st); [|reflexivity].
    destruct (vad_simple _ _ _ _ _). discriminate Hended.
  - intros Hbig. rewrite Hpartial.
    destruct (Z.ltb_spec 14784000 (100 * Z.of_nat (List.length window)));
      [reflexivity | lia].
Qed.

(** X12.  A turn that emits a message never adds to or reorders the
    window beyond draining the queue: the window it leaves is a suffix of
    the old window followed by the drained samples. *)
Theorem emitted_turn_leaves_suffix :
  forall (context_instance : option whisper_context) (late : list Qc)
         (st0 st' : state) (msg : transcribed_msg),
    run_iteration p context_instance late st0 = (st', Emitted msg) ->
    exists n,
      pcmf32 st' = skipn n (pcmf32 st0 ++ s_queued_pcmf32 st0 ++ late).
Proof.
  intros context_instance late st0 st' msg Hrun.
  apply run_iteration_emitted_inv in Hrun.
  destruct Hrun as (whisper_full & st & _ & Hwin & Htr).
  pose proof (transcribe_frame p (Some whisper_full) st) as (_ & _ & _ & Hout).
  rewrite Htr in Hout. cbn [fst snd] in Hout.
  destruct Hout as (_ & _ & n & Hn). exists n. now rewrite Hn, Hwin.
Qed.

(** X13.  When no token the engine reports is a split candidate, the
    message text is the token texts one after the other, without marker,
    and a final message empties the window. *)
Theorem turn_without_candidates :
  forall (whisper_full : whisper_context) (late : list Qc)
         (st0 st' : state) (msg : transcribed_msg),
    run_iteration p (Some whisper_full) late st0 = (st', Emitted msg) ->
    let segs :=
      snd (whisper_full (pcmf32 st0 ++ s_queued_pcmf32 st0 ++ late)) in
    no_candidate (List.concat segs) ->
    text msg = token_texts (List.concat segs)
    /\ (is_partial msg = false -> pcmf32 st' = []).
Proof.
  intros whisper_full late st0 st' msg Hrun segs Hno.
  apply run_iteration_emitted_inv in Hrun.
  destruct Hrun as (whisper_full' & st & Hctx & Hwin & Htr).
  injection Hctx as <-.
  apply transcribe_emitted in Htr.
  destruct Htr as (sc & _ & Hscan & Htext & _ & _ & Hkeep & _).
  rewrite Hwin in Hscan. fold segs in Hscan.
  unfold split_scan, scan_tokens in Hscan.
  destruct (half_t_of segs) as [half_t|]; [|discriminate Hscan].
  rewrite (scan_no_candidate _ _ _ _ Hno) in Hscan.
  injection Hscan as <-. cbn in Htext, Hkeep.
  split; [exact Htext|].
  intros Hfinal. specialize (Hkeep Hfinal). now injection Hkeep as <-.
Qed.

End WorkerWindow.

(** * Further properties of the producer *)

Section ProducerFrames.

Local Open Scope Qc_scope.

Lemma set_queue_same (st : state) : set_queue (s_queued_pcmf32 st) st = st.
Proof. now destruct st. Qed.

(** X14.  The producer only appends: after [add_audio_buffer] the queue is
    the old queue followed by nothing or by as many samples as the
    resampled chunk has, and the worker's window, idle counter,
    forced-close flag, result sink and emitted signals are untouched. *)
Theorem add_audio_buffer_only_appends :
  forall (p : params) (src_simple : resampler) (mix_rate : Z)
         (buffer : list Vector2) (st : state),
    let st' := add_audio_buffer p src_simple mix_rate buffer st in
    (exists added,
        s_queued_pcmf32 st' = s_queued_pcmf32 st ++ added
        /\ (added = []
            \/ List.length added
               = List.length (resampled_chunk src_simple mix_rate buffer)))
    /\ pcmf32 st' = pcmf32 st
    /\ empty_iter_count st' = empty_iter_count st
    /\ need_close_segment st' = need_close_segment st
    /\ s_transcribed_msgs st' = s_transcribed_msgs st
    /\ signals st' = signals st.
Proof.
  intros p src_simple mix_rate buffer st st'. subst st'.
  unfold add_audio_buffer.
  pose proof (vad_simple_length (resampled_chunk src_simple mix_rate buffer)
                WHISPER_SAMPLE_RATE 0 (vad_thold p) (freq_thold p)) as Hlen.
  destruct (vad_simple _ _ _ _ _) as [[] data]; cbn [negb fst snd] in *.
  - split; [|now repeat split]. exists []. split; [now rewrite app_nil_r | now left].
  - split; [|now repeat split]. exists data. split; [reflexivity | now right].
Qed.

(** X15.  Nothing to queue: when the mix rate differs from the target
    rate and the resampler reports an error, or when the buffer is empty
    and the rates agree, the resampled chunk is empty and
    [add_audio_buffer] leaves the whole state as it was. *)
Theorem add_audio_buffer_nothing_to_queue :
  forall (p : params) (src_simple : resampler) (mix_rate : Z)
         (buffer : list Vector2) (st : state),
    (mix_rate <> SPEECH_SETTING_SAMPLE_RATE
     /\ src_simple (_vector2_array_to_float_array buffer) mix_rate
          SPEECH_SETTING_SAMPLE_RATE = None)
    \/ (mix_rate = SPEECH_SETTING_SAMPLE_RATE /\ buffer = []) ->
    resampled_chunk src_simple mix_rate buffer = []
    /\ add_audio_buffer p src_simple mix_rate buffer st = st.
Proof.
  intros p src_simple mix_rate buffer st Hcase.
  assert (Hchunk : resampled_chunk src_simple mix_rate buffer = []).
  { unfold resampled_chunk, _resample_audio_buffer.
    destruct Hcase as [[Hrate Herr] | [Hrate ->]].
    - destruct (Z.eqb_spec mix_rate SPEECH_SETTING_SAMPLE_RATE);
        [contradiction|]. cbn [negb]. now rewrite Herr.
    - rewrite Hrate, Z.eqb_refl. reflexivity. }
  split; [exact Hchunk|].
  unfold add_audio_buffer. rewrite Hchunk, vad_simple_gate. cbn [negb].
  rewrite app_nil_r. apply set_queue_same.
Qed.

Lemma add_audio_buffer_nothing_to_queue_witness :
  add_audio_buffer stream_params (fun _ _ _ => None) 44100
    [(1, 1); (1, 1)] (fresh_state [1])
  = fresh_state [1].
Proof.
  apply (add_audio_buffer_nothing_to_queue stream_params (fun _ _ _ => None)
           44100%Z [(1, 1); (1, 1)] (fresh_state [1])).
  left. split; [discriminate | reflexivity].
Defined.

End ProducerFrames.

(** * Properties of the control surface *)

Section Control.

Lemma of_code_language_to_code (language : Lang.Language) :
  Lang.of_code (Lang.language_to_code language) = Some language.
Proof. destruct language; reflexivity. Qed.

(** X17.  [language_to_code] gives different codes to different
    languages: no two members of the enum share a code. *)
Theorem language_to_code_injective :
  forall a b : Lang.Language,
    Lang.language_to_code a = Lang.language_to_code b -> a = b.
Proof.
  intros a b H.
  pose proof (of_code_language_to_code a) as Ha.
  rewrite H, of_code_language_to_code in Ha. now injection Ha.
Qed.

Lemma language_to_code_injective_witness :
  Lang.Chinese = Lang.Chinese.
Proof.
  apply (language_to_code_injective Lang.Chinese Lang.Chinese). reflexivity.
Defined.

(** X18.  [load_model] never sets [context_instance] to null on its early
    returns.  From a live context, a load with a null model reference or
    with empty content releases the context and returns with the old
    address still in [context_instance]: the handle is not null, so the
    null test of the worker does not catch it, and the next [load_model]
    of any kind releases the same context a second time. *)
Theorem load_model_early_return_keeps_released_handle :
  forall (init : engine_init) (slot : engine_slot) (ctx : whisper_context),
    slot_context slot = LivePtr ctx ->
    model slot = None \/ model slot = Some [] ->
    exists slot',
      load_model init slot = Some slot'
      /\ slot_context slot' = ReleasedPtr
      /\ is_null (slot_context slot') = false
      /\ (forall (next_model : option (list Byte.byte)) (flag : bool),
            set_language_model init next_model slot' = None
            /\ set_use_gpu init flag slot' = None).
Proof.
  intros init slot ctx Hlive Hmodel. unfold load_model. rewrite Hlive.
  cbn [whisper_free model].
  destruct Hmodel as [-> | ->]; eexists; (split; [reflexivity|]); cbn;
    repeat split.
Qed.

Lemma load_model_early_return_keeps_released_handle_witness :
  exists slot',
    load_model (fun _ _ => None)
      {| model := None; use_gpu := false;
         slot_context := LivePtr (engine_returning 0 []) |}
    = Some slot'
    /\ slot_context slot' = ReleasedPtr.
Proof.
  destruct (load_model_early_return_keeps_released_handle
              (fun _ _ => None)
              {| model := None; use_gpu := false;
                 slot_context := LivePtr (engine_returning 0 []) |}
              (engine_returning 0 []) eq_refl (or_introl eq_refl))
    as (slot' & Hload & Hptr & _).
  now exists slot'.
Defined.

(** A load with content, from a null or a live handle, releases the
    old context and leaves [context_instance] holding exactly what the
    engine's initialisation returned: the new live context, or null when
    the initialisation fails.  The model reference and the GPU flag are
    kept. *)
Theorem load_model_with_content :
  forall (init : engine_init) (slot : engine_slot) (b : Byte.byte)
         (data : list Byte.byte),
    slot_context slot <> ReleasedPtr ->
    model slot = Some (b :: data) ->
    load_model init slot
    = Some {| model := model slot;
              use_gpu := use_gpu slot;
              slot_context :=
                match init (b :: data) (use_gpu slot) with
                | Some ctx => LivePtr ctx
                | None => NullPtr
                end |}.
Proof.
  intros init slot b data Hptr Hmodel. unfold load_model.
  destruct (slot_context slot) as [|ctx|]; [| |contradiction];
    cbn [whisper_free model use_gpu]; now rewrite Hmodel.
Qed.

Lemma load_model_with_content_witness :
  load_model (fun _ _ => Some (engine_returning 0 []))
    {| model := Some [Byte.x00]; use_gpu := true; slot_context := NullPtr |}
  = Some {| model := Some [Byte.x00]; use_gpu := true;
            slot_context := LivePtr (engine_returning 0 []) |}.
Proof.
  apply (load_model_with_content (fun _ _ => Some (engine_returning 0 []))
           {| model := Some [Byte.x00]; use_gpu := true;
              slot_context := NullPtr |} Byte.x00 []).
  - discriminate.
  - reflexivity.
Defined.

Lemma listen_step_bound (l : listener) (c : listen_call) (stops : nat) :
  (threads_started l <= stops + (if listening l then 1 else 0))%nat ->
  let stops' := match c with StopListen => S stops | StartListen => stops end in
  (threads_started (listen_step l c)
   <= stops' + (if listening (listen_step l c) then 1 else 0))%nat.
Proof.
  destruct l as [w running n], c; cbn; destruct w, running; cbn; lia.
Qed.

(** X19.  Over any sequence of [start_listen] and [stop_listen] calls,
    starting from a listener that is not running, the worker thread is
    started at most once more than [stop_listen] was called; and
    [start_listen] on a running listener changes nothing. *)
Theorem at_most_one_thread_per_session :
  forall (calls : list listen_call) (l : listener),
    listening l = false ->
    (threads_started (fold_left listen_step calls l)
     <= threads_started l
        + List.length (filter (fun c => match c with
                                        | StopListen => true
                                        | StartListen => false
                                        end) calls)
        + 1)%nat
    /\ (forall l', listening l' = true -> worker l' = true ->
                   start_listen l' = l').
Proof.
  intros calls l Hstopped. split.
  - assert (Hgen : forall calls l stops,
               (threads_started l <= stops + (if listening l then 1 else 0))%nat ->
               (threads_started (fold_left listen_step calls l)
                <= stops
                   + List.length (filter (fun c => match c with
                                                   | StopListen => true
                                                   | StartListen => false
                                                   end) calls)
                   + 1)%nat).
    { clear. induction calls as [|c calls IH]; intros l stops Hinv.
      - cbn. destruct (listening l); lia.
      - cbn [fold_left filter].
        pose proof (listen_step_bound l c stops Hinv) as Hstep.
        cbv zeta in Hstep. apply IH in Hstep.
        destruct c; cbn [List.length] in *; lia. }
    apply Hgen. rewrite Hstopped. lia.
  - intros [w running n] Hrun Hworker. cbn in *. subst. reflexivity.
Qed.

Lemma at_most_one_thread_per_session_witness :
  (threads_started
     (fold_left listen_step [StartListen; StartListen; StopListen; StartListen]
        {| worker := false; listening := false; threads_started := 0 |})
   <= 2)%nat.
Proof.
  exact (proj1 (at_most_one_thread_per_session
                  [StartListen; StartListen; StopListen; StartListen]
                  {| worker := false; listening := false;
                     threads_started := 0 |} eq_refl)).
Defined.

End Control.

(** * Properties of whole runs *)

Section RunProperties.

Variable p : params.

(** X20.  No message before one second of audio: from an empty window,
    as long as everything queued so far stays below 16000 samples, every
    turn idles, so no signal is emitted and the window stays empty,
    however many turns pass and whatever the engine is. *)
Theorem no_signal_before_one_second :
  forall (turns : list turn) (st : state),
    pcmf32 st = [] ->
    (Z.of_nat (List.length
                 (s_queued_pcmf32 st ++ List.concat (map arrived turns)))
     < WHISPER_SAMPLE_RATE)%Z ->
    signals (run p turns st) = signals st
    /\ pcmf32 (run p turns st) = []
    /\ s_transcribed_msgs (run p turns st) = s_transcribed_msgs st.
Proof.
  induction turns as [|t turns IH]; intros st Hwin Hlen; cbn [run].
  - now repeat split.
  - destruct (is_running t); [|now repeat split].
    cbn [map List.concat] in Hlen. rewrite app_assoc in Hlen.
    set (st0 := set_queue (s_queued_pcmf32 st ++ arrived t) st).
    assert (Hshort : (Z.of_nat (List.length (s_queued_pcmf32 st0))
                      < WHISPER_SAMPLE_RATE)%Z)
      by (subst st0; cbn; rewrite length_app in Hlen; lia).
    unfold run_iteration. rewrite (check_queue_short st0 Hshort).
    replace (pcmf32 st0) with (@nil Qc) by (subst st0; cbn; now rewrite Hwin).
    cbn [List.length Z.of_nat Z.ltb Z.compare andb]. rewrite andb_false_r.
    cbn [fst].
    destruct (IH (set_idle (Z.rem (empty_iter_count st0 + 1) 20) false st0))
      as (Hs & Hw & Hm).
    + subst st0. cbn. exact Hwin.
    + subst st0. cbn. exact Hlen.
    + rewrite Hs, Hw, Hm. subst st0. now cbn.
Qed.

(** X21.  The first three seconds are always partial: in a turn that is
    not a forced close and whose window, after draining, holds fewer than
    48000 samples, the voice-activity test is not run, the emitted message
    is partial and the window is kept whole. *)
Theorem short_window_message_is_partial :
  forall (context_instance : option whisper_context) (late : list Qc)
         (st0 st' : state) (msg : transcribed_msg),
    run_iteration p context_instance late st0 = (st', Emitted msg) ->
    need_close_segment (fst (check_queue st0)) = false ->
    let window := pcmf32 st0 ++ s_queued_pcmf32 st0 ++ late in
    (Z.of_nat (List.length window) < n_samples_vad_window)%Z ->
    is_partial msg = true /\ pcmf32 st' = window.
Proof.
  intros context_instance late st0 st' msg Hrun Hnot window Hshort.
  unfold run_iteration in Hrun.
  destruct (check_queue_frame st0) as (Hq & _ & _ & Hw).
  destruct (check_queue st0) as [st1 go]. cbn [fst] in *.
  destruct go; [|discriminate Hrun].
  destruct context_instance as [whisper_full|]; [|discriminate Hrun].
  set (st := drain_queue (set_queue (s_queued_pcmf32 st1 ++ late) st1)) in *.
  assert (Hwin : pcmf32 st = window)
    by (subst st window; cbn; now rewrite Hw, Hq).
  assert (Hjudge : judge_speech_end p st = (EmptyString, false, pcmf32 st)).
  { unfold judge_speech_end.
    replace (need_close_segment st) with false by (subst st; cbn; now rewrite Hnot).
    rewrite Hwin.
    destruct (Z.leb_spec n_samples_vad_window (Z.of_nat (List.length window)));
      [lia | reflexivity]. }
  apply transcribe_emitted in Hrun.
  destruct Hrun as (sc & _ & _ & _ & Hpartial & _ & _ & Hkeep).
  rewrite Hjudge in Hpartial, Hkeep. cbn [fst snd] in Hpartial, Hkeep.
  rewrite Hwin in Hpartial.
  assert (Htrue : is_partial msg = true).
  { rewrite Hpartial, orb_false_r.
    change (n_samples_iter_threshold * 66)%Z with 14784000%Z.
    unfold n_samples_vad_window, WHISPER_SAMPLE_RATE, vad_window_s in Hshort.
    destruct (Z.ltb_spec 14784000 (100 * Z.of_nat (List.length window)));
      [lia | reflexivity]. }
  split; [exact Htrue|]. rewrite (Hkeep Htrue). exact Hwin.
Qed.

End RunProperties.

(** * Concrete runs of the further properties *)

Section MoreRuns.

Local Open Scope string_scope.

Lemma run_keeps_idle_counter_in_range_witness :
  (0 <= empty_iter_count
          (run stream_params (repeat idle_turn 25) (fresh_state [1%Qc]))
   < 20)%Z.
Proof.
  apply (run_keeps_idle_counter_in_range stream_params
           (repeat idle_turn 25) (fresh_state [1%Qc])).
  cbn. lia.
Defined.

Lemma partial_message_keeps_window_witness :
  let r := run_iteration plain_params (Some hello_engine) [] one_second_state in
  snd r = Emitted {| text := "Hello,{SPLIT} world"; is_partial := true |}
  /\ pcmf32 (fst r)
     = (pcmf32 one_second_state ++ s_queued_pcmf32 one_second_state ++ [])%list.
Proof.
  intros r.
  assert (Hsnd : snd r
                 = Emitted {| text := "Hello,{SPLIT} world";
                              is_partial := true |})
    by (vm_compute; reflexivity).
  split; [exact Hsnd|].
  apply (proj1 (partial_message_keeps_window plain_params
                  (Some hello_engine) [] one_second_state (fst r)
                  {| text := "Hello,{SPLIT} world"; is_partial := true |}
                  (eq_trans (surjective_pairing r)
                            (f_equal (pair (fst r)) Hsnd)))).
  reflexivity.
Defined.

Lemma emitted_turn_leaves_suffix_witness :
  let st := before_twentieth_check [1%Qc; 1%Qc] in
  let r := run_iteration stream_params
             (Some (engine_returning 0 [[tok "Hello" 0 100]])) [] st in
  exists n, pcmf32 (fst r) = skipn n (pcmf32 st ++ s_queued_pcmf32 st ++ [])%list.
Proof.
  intros st r.
  apply (emitted_turn_leaves_suffix stream_params
           (Some (engine_returning 0 [[tok "Hello" 0 100]])) [] st (fst r)
           {| text := "Hello"; is_partial := false |}).
  vm_compute. reflexivity.
Defined.

Lemma turn_without_candidates_witness :
  let st := before_twentieth_check [1%Qc; 1%Qc] in
  let r := run_iteration stream_params
             (Some (engine_returning 0 [[tok "Hello" 0 50; tok " world" 50 100]]))
             [] st in
  snd r = Emitted {| text := "Hello world"; is_partial := false |}
  /\ pcmf32 (fst r) = [].
Proof.
  intros st r.
  assert (Hrun : r = (fst r, Emitted {| text := "Hello world";
                                        is_partial := false |}))
    by (vm_compute; reflexivity).
  split; [now rewrite Hrun at 1|].
  destruct (turn_without_candidates stream_params
              (engine_returning 0 [[tok "Hello" 0 50; tok " world" 50 100]])
              [] st (fst r) _ Hrun) as [_ Hfinal].
  - intros tk [<-|[<-|[]]]; reflexivity.
  - apply Hfinal. reflexivity.
Defined.

Lemma no_signal_before_one_second_witness :
  signals (run stream_params (repeat idle_turn 30) (fresh_state [])) = [].
Proof.
  apply (no_signal_before_one_second stream_params (repeat idle_turn 30)
           (fresh_state [])).
  - reflexivity.
  - vm_compute. reflexivity.
Defined.

Lemma short_window_message_is_partial_witness :
  let r := run_iteration plain_params (Some hello_engine) [] one_second_state in
  is_partial_of (snd r) = Some true
  /\ pcmf32 (fst r)
     = (pcmf32 one_second_state ++ s_queued_pcmf32 one_second_state ++ [])%list.
Proof.
  intros r.
  assert (Hsnd : snd r
                 = Emitted {| text := "Hello,{SPLIT} world";
                              is_partial := true |})
    by (vm_compute; reflexivity).
  split; [now rewrite Hsnd|].
  apply (short_window_message_is_partial plain_params
           (Some hello_engine) [] one_second_state (fst r)
           {| text := "Hello,{SPLIT} world"; is_partial := true |}
           (eq_trans (surjective_pairing r) (f_equal (pair (fst r)) Hsnd))).
  - reflexivity.
  - vm_compute. reflexivity.
Defined.

End MoreRuns.
